(** * Orchestra builder: a shallow embedding of the playback and track engine

    The development follows the React component [OrchestraBuilder]
    (state hooks, the two refs, the event handlers, the sequencer callback
    and the effect cleanups), the music utilities (note names, scales,
    clefs, the two text renderings) and the drop handler of the staff
    component.

    Component state is a record; the refs [synthsRef] and [sequencerRef]
    are fields of the same record because the handlers and the sequencer
    callback share them.  [synthsRef.current] is a JS object used as a
    dictionary and is a [gmap string Voice].  A JS [number] holding an
    integer is a [Z]. *)

From Stdlib Require Import ZArith QArith Ascii String Sorted.
From Stdlib Require Import DecimalString DecimalNat DecimalPos DecimalZ.
From stdpp Require Import base decidable option list strings gmap fin_maps.

Local Open Scope string_scope.
Local Open Scope Z_scope.

(** ** Data model ([lib/types]) *)

Inductive NoteDuration := whole | half | quarter | eighth | sixteenth.

#[global] Instance NoteDuration_eq_dec : EqDecision NoteDuration.
Proof. solve_decision. Defined.

(** [duration?: NoteDuration]: the field is optional. *)
Record Note := mkNote {
  step : Z;
  pitch : string;
  duration : option NoteDuration
}.

#[global] Instance Note_eq_dec : EqDecision Note.
Proof. solve_decision. Defined.

Record Track := mkTrack {
  id : string;
  instrument : string;
  notes : list Note;
  volume : Z;
  muted : bool
}.

#[global] Instance Track_eq_dec : EqDecision Track.
Proof. solve_decision. Defined.

(** [n.toString()] for a non-negative integer, and the template-literal
    rendering of an integer. *)
Definition natToString (n : nat) : string :=
  NilEmpty.string_of_uint (Nat.to_uint n).

Definition intToString (z : Z) : string :=
  NilEmpty.string_of_int (Z.to_int z).

(** ** The audio engine as the component sees it

    Tone.js is an external library.  A voice is the handle stored in
    [synthsRef.current] (typed [any] in the source): the family it was
    built from, its output level [synth.volume.value], and for each method
    the component calls on it whether the call returns, throws, or is not
    a function at all. *)

Inductive VoiceFamily := Synth | AMSynth | FMSynth | MonoSynth | MembraneSynth.

#[global] Instance VoiceFamily_eq_dec : EqDecision VoiceFamily.
Proof. solve_decision. Defined.

Inductive Method := Callable | Throwing | NotAFunction.

#[global] Instance Method_eq_dec : EqDecision Method.
Proof. solve_decision. Defined.

Record Voice := mkVoice {
  family : VoiceFamily;
  level : Z;
  triggerAttackRelease : Method;
  releaseAll : Method;
  dispose : Method
}.

#[global] Instance Voice_eq_dec : EqDecision Voice.
Proof. solve_decision. Defined.

(** [new Tone.PolySynth(F).toDestination()]: every method works and the
    level starts at 0. *)
Definition newPolySynth (f : VoiceFamily) : Voice :=
  mkVoice f 0 Callable Callable Callable.

Definition setLevel (v : Z) (x : Voice) : Voice :=
  mkVoice (family x) v (triggerAttackRelease x) (releaseAll x) (dispose x).

(** The object built by [new Tone.Sequence(callback, events, subdivision)].
    The callback closes over the [tracks] of the render in which
    [createSequence] ran, so the sequence carries that snapshot. *)
Record Sequence := mkSequence {
  seq_tracks : list Track;
  seq_events : list Z;
  seq_subdivision : string;
  seq_dispose : Method
}.

Inductive TransportState := started | stopped | paused.

#[global] Instance TransportState_eq_dec : EqDecision TransportState.
Proof. solve_decision. Defined.

(** [Tone.Transport]; [position] and the loop points are counted in
    eighth notes, the subdivision of the sequence. *)
Record Transport := mkTransport {
  tstate : TransportState;
  position : Z;
  loop : bool;
  loopStart : Z;
  loopEnd : Z;
  tbpm : Z
}.

(** What the component does to the outside world, in order: the calls on
    voices and on the sequence that returned, and the console lines. *)
Inductive Event :=
  | VoiceCreated (key : string) (f : VoiceFamily)
  | VoiceReleaseAll (key : string)
  | VoiceDispose (key : string)
  | VoiceTrigger (key : string) (p : string) (dur : string) (time : Z)
  | SequenceDispose
  | ConsoleWarn (about : string)
  | ConsoleError (about : string).

#[global] Instance Event_eq_dec : EqDecision Event.
Proof. solve_decision. Defined.

(** ** Component state *)

Record State := mkState {
  tracks : list Track;
  currentTrackId : string;
  isPlaying : bool;
  bpm : Z;
  currentStep : Z;
  totalSteps : Z;
  activeDuration : NoteDuration;
  synthsRef : gmap string Voice;
  sequencerRef : option Sequence;
  transport : Transport;
  contextRunning : bool;
  trace : list Event
}.

Definition setTracks (ts : list Track) (s : State) : State :=
  mkState ts (currentTrackId s) (isPlaying s) (bpm s) (currentStep s)
    (totalSteps s) (activeDuration s) (synthsRef s) (sequencerRef s)
    (transport s) (contextRunning s) (trace s).

Definition setCurrentTrackId (i : string) (s : State) : State :=
  mkState (tracks s) i (isPlaying s) (bpm s) (currentStep s)
    (totalSteps s) (activeDuration s) (synthsRef s) (sequencerRef s)
    (transport s) (contextRunning s) (trace s).

Definition setIsPlaying (b : bool) (s : State) : State :=
  mkState (tracks s) (currentTrackId s) b (bpm s) (currentStep s)
    (totalSteps s) (activeDuration s) (synthsRef s) (sequencerRef s)
    (transport s) (contextRunning s) (trace s).

Definition setCurrentStep (n : Z) (s : State) : State :=
  mkState (tracks s) (currentTrackId s) (isPlaying s) (bpm s) n
    (totalSteps s) (activeDuration s) (synthsRef s) (sequencerRef s)
    (transport s) (contextRunning s) (trace s).

Definition setActiveDuration (d : NoteDuration) (s : State) : State :=
  mkState (tracks s) (currentTrackId s) (isPlaying s) (bpm s) (currentStep s)
    (totalSteps s) d (synthsRef s) (sequencerRef s)
    (transport s) (contextRunning s) (trace s).

Definition setSynths (m : gmap string Voice) (s : State) : State :=
  mkState (tracks s) (currentTrackId s) (isPlaying s) (bpm s) (currentStep s)
    (totalSteps s) (activeDuration s) m (sequencerRef s)
    (transport s) (contextRunning s) (trace s).

Definition setSequencer (q : option Sequence) (s : State) : State :=
  mkState (tracks s) (currentTrackId s) (isPlaying s) (bpm s) (currentStep s)
    (totalSteps s) (activeDuration s) (synthsRef s) q
    (transport s) (contextRunning s) (trace s).

Definition setTransport (t : Transport) (s : State) : State :=
  mkState (tracks s) (currentTrackId s) (isPlaying s) (bpm s) (currentStep s)
    (totalSteps s) (activeDuration s) (synthsRef s) (sequencerRef s)
    t (contextRunning s) (trace s).

Definition setContextRunning (b : bool) (s : State) : State :=
  mkState (tracks s) (currentTrackId s) (isPlaying s) (bpm s) (currentStep s)
    (totalSteps s) (activeDuration s) (synthsRef s) (sequencerRef s)
    (transport s) b (trace s).

Definition emit (e : Event) (s : State) : State :=
  mkState (tracks s) (currentTrackId s) (isPlaying s) (bpm s) (currentStep s)
    (totalSteps s) (activeDuration s) (synthsRef s) (sequencerRef s)
    (transport s) (contextRunning s) (trace s ++ [e]).

(** The [useState]/[useRef] initial values and the engine before any
    user gesture: transport stopped, audio context suspended. *)
Definition initialState : State :=
  mkState [mkTrack "1" "piano" [] 0 false] "1" false 120 0 16 quarter
    ∅ None (mkTransport stopped 0 false 0 0 120) false [].

(** A handler either returns or throws; a throw keeps the state updates
    queued before it. *)
Inductive Outcome :=
  | Done (s : State)
  | Thrown (about : string) (s : State).

Definition stateOf (o : Outcome) : State :=
  match o with Done s => s | Thrown _ s => s end.

Definition returned (o : Outcome) : bool :=
  match o with Done _ => true | Thrown _ _ => false end.

(** ** Instrument registry

    The [switch] over the instrument identifier.  It is written out twice
    in the source, in the synth-initialising effect ([track.instrument])
    and in [updateTrackInstrument] ([instrument]). *)

Definition oneOf (x : string) (cases : list string) : bool :=
  existsb (String.eqb x) cases.

Definition keyboardCases : list string :=
  ["piano"; "harpsichord"; "organ"; "synthesizer"].
Definition stringCases : list string :=
  ["violin"; "viola"; "cello"; "guitar"; "harp"].
Definition woodwindCases : list string :=
  ["flute"; "clarinet"; "oboe"; "bassoon"].
Definition brassCases : list string :=
  ["trumpet"; "trombone"; "french horn"; "tuba"].
Definition percussionCases : list string :=
  ["drums"; "timpani"; "xylophone"; "marimba"].

Definition registry : list string :=
  keyboardCases ++ stringCases ++ woodwindCases ++ brassCases ++ percussionCases.

Definition initVoiceFamily (instrument : string) : VoiceFamily :=
  if oneOf instrument keyboardCases then Synth
  else if oneOf instrument stringCases then AMSynth
  else if oneOf instrument woodwindCases then FMSynth
  else if oneOf instrument brassCases then MonoSynth
  else if oneOf instrument percussionCases then MembraneSynth
  else Synth.

Definition updateVoiceFamily (instrument : string) : VoiceFamily :=
  if oneOf instrument keyboardCases then Synth
  else if oneOf instrument stringCases then AMSynth
  else if oneOf instrument woodwindCases then FMSynth
  else if oneOf instrument brassCases then MonoSynth
  else if oneOf instrument percussionCases then MembraneSynth
  else Synth.

(** ** Track and note handlers *)

Definition addTrack (s : State) : State :=
  let newTrackId := natToString (length (tracks s) + 1) in
  setCurrentTrackId newTrackId
    (setTracks (tracks s ++ [mkTrack newTrackId "piano" [] 0 false]) s).

(** The [try] block shared by [removeTrack] and [updateTrackInstrument]:
    [releaseAll()], [dispose()], [delete synthsRef.current[id]]; the
    [catch] logs and goes on.  [synthsRef.current] is an object literal
    read here as the dictionary of its own entries; that is what the read
    gives for every key that does not name a member of
    [Object.prototype], in particular for the decimal numerals that
    [addTrack] issues as ids. *)
Definition releaseVoice (key : string) (s : State) : State :=
  match synthsRef s !! key with
  | None => s
  | Some v =>
      match releaseAll v with
      | Callable =>
          let s1 := emit (VoiceReleaseAll key) s in
          match dispose v with
          | Callable =>
              setSynths (delete key (synthsRef s1)) (emit (VoiceDispose key) s1)
          | _ => emit (ConsoleError "Error disposing synth for track") s1
          end
      | _ => emit (ConsoleError "Error disposing synth for track") s
      end
  end.

Definition otherThan (i : string) (t : Track) : bool :=
  negb (String.eqb (id t) i).

Definition removeTrack (i : string) (s : State) : Outcome :=
  if (length (tracks s) <=? 1)%nat then Done s
  else
    let s1 := releaseVoice i s in
    let s2 := setTracks (List.filter (otherThan i) (tracks s)) s1 in
    if String.eqb (currentTrackId s) i then
      let remainingTracks := List.filter (otherThan i) (tracks s) in
      match remainingTracks with
      | t :: _ => Done (setCurrentTrackId (id t) s2)
      | [] => Thrown "TypeError: remainingTracks[0] is undefined" s2
      end
    else Done s2.

Definition withInstrument (i instr : string) (t : Track) : Track :=
  if String.eqb (id t) i
  then mkTrack (id t) instr (notes t) (volume t) (muted t) else t.

Definition hasId (i : string) (t : Track) : bool := String.eqb (id t) i.

Definition updateTrackInstrument (i instr : string) (s : State) : State :=
  let s1 := releaseVoice i s in
  let s2 := setTracks (List.map (withInstrument i instr) (tracks s)) s1 in
  let synth := newPolySynth (updateVoiceFamily instr) in
  let synth' :=
    match List.find (hasId i) (tracks s) with
    | Some t => setLevel (volume t) synth
    | None => synth
    end in
  setSynths (<[i := synth']> (synthsRef s2))
    (emit (VoiceCreated i (updateVoiceFamily instr)) s2).

Definition withVolume (i : string) (v : Z) (t : Track) : Track :=
  if String.eqb (id t) i
  then mkTrack (id t) (instrument t) (notes t) v (muted t) else t.

(** [setTracks] with the new volume, then the level of the voice under
    [id] when one is registered; the registry is read as in
    [releaseVoice]. *)
Definition updateTrackVolume (i : string) (v : Z) (s : State) : State :=
  let s1 := setTracks (List.map (withVolume i v) (tracks s)) s in
  match synthsRef s1 !! i with
  | Some x => setSynths (<[i := setLevel v x]> (synthsRef s1)) s1
  | None => s1
  end.

Definition withMuteToggled (i : string) (t : Track) : Track :=
  if String.eqb (id t) i
  then mkTrack (id t) (instrument t) (notes t) (volume t) (negb (muted t))
  else t.

Definition toggleTrackMute (i : string) (s : State) : State :=
  setTracks (List.map (withMuteToggled i) (tracks s)) s.

(** [note.step === step && note.pitch === pitch] *)
Definition sameKey (st : Z) (p : string) (n : Note) : bool :=
  Z.eqb (step n) st && String.eqb (pitch n) p.

Definition withoutNote (i : string) (st : Z) (p : string) (t : Track) : Track :=
  if String.eqb (id t) i
  then mkTrack (id t) (instrument t)
         (List.filter (fun n => negb (sameKey st p n)) (notes t))
         (volume t) (muted t)
  else t.

Definition withNote (i : string) (n : Note) (t : Track) : Track :=
  if String.eqb (id t) i
  then mkTrack (id t) (instrument t) (notes t ++ [n]) (volume t) (muted t)
  else t.

(** [duration] is a parameter with the default [activeDuration]: [None]
    is a call that leaves it out. *)
Definition addNote (trackId : string) (st : Z) (p : string)
    (d : option NoteDuration) (s : State) : State :=
  let dur := default (activeDuration s) d in
  match List.find (hasId trackId) (tracks s) with
  | None => s
  | Some track =>
      let noteExists := existsb (sameKey st p) (notes track) in
      if noteExists
      then setTracks (List.map (withoutNote trackId st p) (tracks s)) s
      else
        let newNote := mkNote st p (Some dur) in
        setTracks (List.map (withNote trackId newNote) (tracks s)) s
  end.

Definition withNoNotes (i : string) (t : Track) : Track :=
  if String.eqb (id t) i
  then mkTrack (id t) (instrument t) [] (volume t) (muted t) else t.

Definition clearTrack (trackId : string) (s : State) : State :=
  setTracks (List.map (withNoNotes trackId) (tracks s)) s.

(** ** Sequencer *)

(** The [switch (note.duration)] of the sequencer callback, with its
    [default] arm for a note that carries no duration. *)
Definition toneDuration (d : option NoteDuration) : string :=
  match d with
  | Some whole => "1n"
  | Some half => "2n"
  | Some quarter => "4n"
  | Some eighth => "8n"
  | Some sixteenth => "16n"
  | None => "8n"
  end.

(** [notesToPlay.forEach(...)] inside the [try]: a throwing
    [triggerAttackRelease] leaves the loop. *)
Fixpoint triggerNotes (key : string) (synth : Voice) (time : Z)
    (ns : list Note) (s : State) : Outcome :=
  match ns with
  | [] => Done s
  | n :: rest =>
      match triggerAttackRelease synth with
      | Callable =>
          triggerNotes key synth time rest
            (emit (VoiceTrigger key (pitch n) (toneDuration (duration n)) time) s)
      | _ => Thrown "triggerAttackRelease" s
      end
  end.

Definition startsAt (stepIx : Z) (n : Note) : bool := Z.eqb (step n) stepIx.

(** The body of [tracks.forEach] in the callback, for one track. *)
Definition playTrack (stepIx time : Z) (s : State) (track : Track) : State :=
  if muted track then s
  else
    let notesToPlay := List.filter (startsAt stepIx) (notes track) in
    match notesToPlay, synthsRef s !! id track with
    | _ :: _, Some synth =>
        match triggerAttackRelease synth with
        | NotAFunction => emit (ConsoleWarn "Synth is not available or was disposed") s
        | _ =>
            match triggerNotes (id track) synth time notesToPlay s with
            | Done s' => s'
            | Thrown _ s' => emit (ConsoleError "Error playing notes for track") s'
            end
        end
    | _, _ => s
    end.

(** The callback [(time, step) => ...] of the sequence: it reads the
    tracks it closed over and the live [synthsRef]. *)
Definition sequenceCallback (q : Sequence) (time stepIx : Z) (s : State) : State :=
  foldl (playTrack stepIx time) (setCurrentStep stepIx s) (seq_tracks q).

(** [Array.from({ length: totalSteps }, (_, i) => i)] *)
Definition stepIndices (n : Z) : list Z :=
  List.map Z.of_nat (seq 0 (Z.to_nat n)).

Definition createSequence (s : State) : Outcome :=
  let disposed :=
    match sequencerRef s with
    | Some q =>
        match seq_dispose q with
        | Callable => Done (setSequencer None (emit SequenceDispose s))
        | _ => Thrown "sequencerRef.current.dispose" s
        end
    | None => Done s
    end in
  match disposed with
  | Thrown e s' => Thrown e s'
  | Done s1 =>
      Done (setSequencer
              (Some (mkSequence (tracks s) (stepIndices (totalSteps s)) "8n" Callable))
              s1)
  end.

(** ** Transport controls *)

Definition transportPause (t : Transport) : Transport :=
  mkTransport paused (position t) (loop t) (loopStart t) (loopEnd t) (tbpm t).

Definition transportStart (t : Transport) : Transport :=
  mkTransport started (position t) (loop t) (loopStart t) (loopEnd t) (tbpm t).

Definition transportStop (t : Transport) : Transport :=
  mkTransport stopped 0 (loop t) (loopStart t) (loopEnd t) (tbpm t).

Definition transportSetPosition (p : Z) (t : Transport) : Transport :=
  mkTransport (tstate t) p (loop t) (loopStart t) (loopEnd t) (tbpm t).

Definition transportSetLoop (a b : Z) (t : Transport) : Transport :=
  mkTransport (tstate t) (position t) true a b (tbpm t).

Definition transportSetBpm (v : Z) (t : Transport) : Transport :=
  mkTransport (tstate t) (position t) (loop t) (loopStart t) (loopEnd t) v.

(** The fallback of [togglePlayback] for a track without a synth: always
    [Tone.Synth], whatever the instrument. *)
Definition recreateMissing (s : State) (track : Track) : State :=
  match synthsRef s !! id track with
  | Some _ => s
  | None =>
      setSynths (<[id track := setLevel (volume track) (newPolySynth Synth)]> (synthsRef s))
        (emit (VoiceCreated (id track) Synth) s)
  end.

Definition hasSynth (s : State) (track : Track) : bool :=
  bool_decide (is_Some (synthsRef s !! id track)).

(** The part of [togglePlayback] after the audio context is running. *)
Definition playOrPause (s : State) : Outcome :=
  if isPlaying s then
    Done (setIsPlaying false (setTransport (transportPause (transport s)) s))
  else
    let allSynthsReady := forallb (hasSynth s) (tracks s) in
    let s1 := if allSynthsReady then s else foldl recreateMissing s (tracks s) in
    match createSequence s1 with
    | Thrown e s' => Thrown e s'
    | Done s2 =>
        let t1 := transportSetLoop 0 (totalSteps s) (transport s2) in
        let t2 := transportSetPosition 0 t1 in
        Done (setIsPlaying true (setTransport (transportStart t2) s2))
    end.

(** [togglePlayback]; [startResolves] says whether the promise of
    [Tone.start()] resolves when the context is not yet running.  The
    whole body sits in one [try]; the [catch] logs. *)
Definition togglePlayback (startResolves : bool) (s : State) : State :=
  let attempt :=
    if contextRunning s then playOrPause s
    else if startResolves then playOrPause (setContextRunning true s)
    else Thrown "Tone.start" s in
  match attempt with
  | Done s' => s'
  | Thrown _ s' => emit (ConsoleError "Error toggling playback") s'
  end.

Definition resetPlayback (s : State) : State :=
  let s1 := setCurrentStep 0 s in
  if bool_decide (tstate (transport s1) = stopped) then s1
  else setTransport (transportSetPosition 0 (transport s1)) s1.

(** [setBpm] from the slider together with the effect that copies [bpm]
    into [Tone.Transport.bpm.value]. *)
Definition changeBpm (v : Z) (s : State) : State :=
  setTransport (transportSetBpm v (transport s))
    (mkState (tracks s) (currentTrackId s) (isPlaying s) v (currentStep s)
       (totalSteps s) (activeDuration s) (synthsRef s) (sequencerRef s)
       (transport s) (contextRunning s) (trace s)).

(** One subdivision of the transport clock.  While the transport is
    started and a sequence is installed, the sequence fires its callback
    with the event at the current position, and the position moves on by
    one eighth note, wrapping at the loop end when looping.  A paused or
    stopped transport emits nothing. *)
Definition tickStep (s : State) : option Z :=
  match tstate (transport s), sequencerRef s with
  | started, Some q =>
      match seq_events q with
      | [] => None
      | _ => Some (position (transport s) mod Z.of_nat (length (seq_events q)))
      end
  | _, _ => None
  end.

Definition advance (t : Transport) : Transport :=
  let p := position t + 1 in
  transportSetPosition (if loop t && (loopEnd t <=? p) then loopStart t else p) t.

Definition clockTick (time : Z) (s : State) : State :=
  match tstate (transport s) with
  | started =>
      let s1 :=
        match tickStep s, sequencerRef s with
        | Some ix, Some q => sequenceCallback q time ix s
        | _, _ => s
        end in
      setTransport (advance (transport s1)) s1
  | _ => s
  end.

(** ** Effects of the synth registry

    The first [useEffect] (dependency [tracks]) creates the missing
    synths and copies the volumes; its cleanup disposes everything.  The
    second [useEffect] (no dependency) only has a cleanup, run on unmount.
    [Object.values] is enumerated with [map_to_list]; nothing below
    depends on the order of the enumeration. *)

Definition createMissing (s : State) (track : Track) : State :=
  match synthsRef s !! id track with
  | Some _ => s
  | None =>
      let f := initVoiceFamily (instrument track) in
      setSynths (<[id track := setLevel (volume track) (newPolySynth f)]> (synthsRef s))
        (emit (VoiceCreated (id track) f) s)
  end.

Definition syncVolume (s : State) (track : Track) : State :=
  match synthsRef s !! id track with
  | Some x => setSynths (<[id track := setLevel (volume track) x]> (synthsRef s)) s
  | None => s
  end.

Definition initSynths (s : State) : State :=
  foldl syncVolume (foldl createMissing s (tracks s)) (tracks s).

(** [Object.values(synthsRef.current).forEach(synth => synth.dispose())]
    with no [try]: the first failing call ends the loop by a throw. *)
Fixpoint disposeEach (vs : list (string * Voice)) (s : State) : Outcome :=
  match vs with
  | [] => Done s
  | (k, v) :: rest =>
      match dispose v with
      | Callable => disposeEach rest (emit (VoiceDispose k) s)
      | _ => Thrown "synth.dispose" s
      end
  end.

Definition clearRefs (s : State) : State :=
  setSequencer None (setSynths ∅ s).

(** Cleanup of the first effect. *)
Definition cleanupSynths (s : State) : Outcome :=
  match disposeEach (map_to_list (synthsRef s)) s with
  | Thrown e s' => Thrown e s'
  | Done s1 =>
      match sequencerRef s1 with
      | Some q =>
          match seq_dispose q with
          | Callable => Done (clearRefs (emit SequenceDispose s1))
          | _ => Thrown "sequencerRef.current.dispose" s1
          end
      | None => Done (clearRefs s1)
      end
  end.

(** The same loop with the guard and the [try]/[catch] of the second
    cleanup around each call. *)
Fixpoint disposeEachGuarded (vs : list (string * Voice)) (s : State) : State :=
  match vs with
  | [] => s
  | (k, v) :: rest =>
      match dispose v with
      | Callable => disposeEachGuarded rest (emit (VoiceDispose k) s)
      | Throwing => disposeEachGuarded rest (emit (ConsoleError "Error disposing synth") s)
      | NotAFunction => disposeEachGuarded rest s
      end
  end.

(** Cleanup of the second effect. *)
Definition unmountCleanup (s : State) : State :=
  let s0 :=
    if bool_decide (tstate (transport s) = stopped) then s
    else setTransport (transportStop (transport s)) s in
  let s1 := disposeEachGuarded (map_to_list (synthsRef s0)) s0 in
  let s2 :=
    match sequencerRef s1 with
    | Some q =>
        match seq_dispose q with
        | Callable => emit SequenceDispose s1
        | _ => emit (ConsoleError "Error disposing sequencer") s1
        end
    | None => s1
    end in
  clearRefs s2.

(** Unmounting runs the cleanups in the order the effects are declared.
    A cleanup that throws does not keep React from running the next one,
    but its error has left the component: the outcome is [Thrown]. *)
Definition unmount (s : State) : Outcome :=
  match cleanupSynths s with
  | Done s1 => Done (unmountCleanup s1)
  | Thrown e s1 => Thrown e (unmountCleanup s1)
  end.

(** A change of [tracks] re-runs the first effect: cleanup, then body,
    with the same convention for a cleanup that throws. *)
Definition tracksEffect (s : State) : Outcome :=
  match cleanupSynths s with
  | Done s1 => Done (initSynths s1)
  | Thrown e s1 => Thrown e (initSynths s1)
  end.

(** ** Sessions *)

(** What can happen to the mounted component: a call of one of its
    handlers, a subdivision of the transport clock, a run of the synth
    effect, a choice on the duration palette ([setActiveDuration]). *)
Inductive Action :=
  | AddTrack
  | RemoveTrack (i : string)
  | UpdateTrackInstrument (i instr : string)
  | UpdateTrackVolume (i : string) (v : Z)
  | ToggleTrackMute (i : string)
  | AddNote (trackId : string) (st : Z) (p : string) (d : option NoteDuration)
  | ClearTrack (trackId : string)
  | SelectTrack (i : string)
  | TogglePlayback (startResolves : bool)
  | ResetPlayback
  | ChangeBpm (v : Z)
  | ClockTick (time : Z)
  | TracksEffect
  | SelectDuration (d : NoteDuration).

Definition run (a : Action) (s : State) : Outcome :=
  match a with
  | AddTrack => Done (addTrack s)
  | RemoveTrack i => removeTrack i s
  | UpdateTrackInstrument i instr => Done (updateTrackInstrument i instr s)
  | UpdateTrackVolume i v => Done (updateTrackVolume i v s)
  | ToggleTrackMute i => Done (toggleTrackMute i s)
  | AddNote t st p d => Done (addNote t st p d s)
  | ClearTrack t => Done (clearTrack t s)
  | SelectTrack i => Done (setCurrentTrackId i s)
  | TogglePlayback r => Done (togglePlayback r s)
  | ResetPlayback => Done (resetPlayback s)
  | ChangeBpm v => Done (changeBpm v s)
  | ClockTick time => Done (clockTick time s)
  | TracksEffect => tracksEffect s
  | SelectDuration d => Done (setActiveDuration d s)
  end.

Definition session (acts : list Action) (s : State) : State :=
  foldl (fun st a => stateOf (run a st)) s acts.

Inductive reachable : State -> Prop :=
  | reach_init : reachable initialState
  | reach_step a s : reachable s -> reachable (stateOf (run a s)).

(** ** Music utilities: MIDI numbers and note names *)

(** A JS number that is an integer, or [NaN].  The arithmetic on [Int]
    is that of [Z]: it is the arithmetic of the source as long as every
    value stays between -2^53 and 2^53, where binary64 holds the integers
    exactly. *)
Inductive Number := Int (z : Z) | NaN.

#[global] Instance Number_eq_dec : EqDecision Number.
Proof. solve_decision. Defined.

Definition noteNames : list string :=
  ["C"; "C#"; "D"; "D#"; "E"; "F"; "F#"; "G"; "G#"; "A"; "A#"; "B"].

(** [noteNames[i]] inside a template literal: an index outside the array
    reads [undefined]. *)
Definition nameAt (i : Z) : string :=
  if i <? 0 then "undefined"
  else match nth_error noteNames (Z.to_nat i) with
       | Some n => n
       | None => "undefined"
       end.

(** [Math.floor(midi / 12)] is [Z.div]; [%] truncates, so it is [Z.rem].
    [intToString] writes the plain decimal numeral, which is what the
    template literal writes for an integer in that range. *)
Definition midiToNoteName (midi : Z) : string :=
  let octave := midi / 12 - 1 in
  let noteIndex := Z.rem midi 12 in
  String.append (nameAt noteIndex) (intToString octave).

Definition charCode (c : ascii) : Z := Z.of_nat (nat_of_ascii c).

(** The character classes of [/([A-G])(#|b)?([-0-9]+)/]. *)
Definition isNoteLetter (c : ascii) : bool :=
  (65 <=? charCode c) && (charCode c <=? 71).
Definition isAccidental (c : ascii) : bool :=
  (charCode c =? 35) || (charCode c =? 98).
Definition isDigit (c : ascii) : bool :=
  (48 <=? charCode c) && (charCode c <=? 57).
Definition isOctaveChar (c : ascii) : bool :=
  (charCode c =? 45) || isDigit c.

(** The greedy [+]: the longest run of class characters. *)
Fixpoint takeRun (cls : ascii -> bool) (cs : list ascii) : list ascii :=
  match cs with
  | c :: rest => if cls c then c :: takeRun cls rest else []
  | [] => []
  end.

Record PitchMatch := mkPitchMatch {
  m_note : ascii;
  m_accidental : option ascii;
  m_octave : list ascii
}.

Definition octaveGroup (acc : option ascii) (n : ascii) (cs : list ascii)
    : option PitchMatch :=
  match takeRun isOctaveChar cs with
  | [] => None
  | o => Some (mkPitchMatch n acc o)
  end.

(** A match attempt that starts at the head of [cs]: the letter, then
    the optional group tried first with an accidental and, if the rest
    fails, without one. *)
Definition matchHere (cs : list ascii) : option PitchMatch :=
  match cs with
  | n :: rest =>
      if isNoteLetter n then
        let withAccidental :=
          match rest with
          | a :: rest' => if isAccidental a then octaveGroup (Some a) n rest' else None
          | [] => None
          end in
        match withAccidental with
        | Some r => Some r
        | None => octaveGroup None n rest
        end
      else None
  | [] => None
  end.

(** [String.prototype.match] without the [g] flag: the leftmost start
    position at which an attempt succeeds. *)
Fixpoint matchPitch (cs : list ascii) : option PitchMatch :=
  match cs with
  | [] => None
  | c :: rest =>
      match matchHere (c :: rest) with
      | Some r => Some r
      | None => matchPitch rest
      end
  end.

(** [Number.parseInt] on a string of [-] and digits, the only strings
    the third group can capture: an optional sign, then the longest run
    of decimal digits; no digit gives [NaN]. *)
Definition digitsValue (ds : list ascii) : Z :=
  foldl (fun acc d => 10 * acc + (charCode d - 48)) 0 ds.

Definition parseInt (cs : list ascii) : Number :=
  let '(neg, body) :=
    match cs with
    | c :: rest => if charCode c =? 45 then (true, rest) else (false, cs)
    | [] => (false, cs)
    end in
  match takeRun isDigit body with
  | [] => NaN
  | ds => Int (if neg then - digitsValue ds else digitsValue ds)
  end.

(** [noteNames.indexOf(note)], -1 when absent. *)
Fixpoint indexOfFrom (i : Z) (x : string) (l : list string) : Z :=
  match l with
  | [] => -1
  | y :: rest => if String.eqb y x then i else indexOfFrom (i + 1) x rest
  end.

Definition indexOf (x : string) (l : list string) : Z := indexOfFrom 0 x l.

Definition numAdd (a b : Number) : Number :=
  match a, b with Int x, Int y => Int (x + y) | _, _ => NaN end.
Definition numMul (a b : Number) : Number :=
  match a, b with Int x, Int y => Int (x * y) | _, _ => NaN end.

Definition noteNameToMidi (noteName : string) : Number :=
  match matchPitch (list_ascii_of_string noteName) with
  | None => Int 60
  | Some m =>
      let noteIndex := indexOf (String (m_note m) EmptyString) noteNames in
      let noteIndex :=
        if bool_decide (m_accidental m = Some "#"%char) then noteIndex + 1 else noteIndex in
      let noteIndex :=
        if bool_decide (m_accidental m = Some "b"%char) then noteIndex - 1 else noteIndex in
      numAdd (numMul (numAdd (parseInt (m_octave m)) (Int 1)) (Int 12)) (Int noteIndex)
  end.

(** The language of the pattern, stated on the string itself: somewhere
    in it a letter [A]-[G], at most one accidental, and at least one
    octave character. *)
Definition matchesPitchPattern (noteName : string) : Prop :=
  exists (pre : list ascii) (n : ascii) (acc oct post : list ascii),
    list_ascii_of_string noteName = (pre ++ n :: acc ++ oct ++ post)%list /\
    isNoteLetter n = true /\
    (acc = [] \/ exists a, acc = [a] /\ isAccidental a = true) /\
    oct <> [] /\ Forall (fun c => isOctaveChar c = true) oct.

(** * Notions used in the statements *)

Definition noteKey (n : Note) : Z * string := (step n, pitch n).

Definition keys (t : Track) : list (Z * string) := List.map noteKey (notes t).

(** Among tracks that share an id, an earlier one holds every note key
    of a later one. *)
Fixpoint dominated (ts : list Track) : Prop :=
  match ts with
  | [] => True
  | t :: rest =>
      (forall u, In u rest -> id u = id t -> incl (keys u) (keys t)) /\ dominated rest
  end.

Definition tracksInv (ts : list Track) : Prop :=
  Forall (fun t => List.NoDup (keys t)) ts /\ dominated ts.

(** The notes of the track that [tracks.find] selects for an id. *)
Definition trackNotes (i : string) (s : State) : option (list Note) :=
  option_map notes (List.find (hasId i) (tracks s)).

Definition notSameKey (st : Z) (p : string) (n : Note) : bool :=
  negb (sameKey st p n).

(** [s] with more lines at the end of its trace. *)
Definition appendTrace (evs : list Event) (s : State) : State :=
  mkState (tracks s) (currentTrackId s) (isPlaying s) (bpm s) (currentStep s)
    (totalSteps s) (activeDuration s) (synthsRef s) (sequencerRef s)
    (transport s) (contextRunning s) (trace s ++ evs).

Definition triggerOf (key : string) (time : Z) (n : Note) : Event :=
  VoiceTrigger key (pitch n) (toneDuration (duration n)) time.

(** What one track adds to the trace during a tick. *)
Definition trackEvents (synths : gmap string Voice) (stepIx time : Z)
    (t : Track) : list Event :=
  if muted t then []
  else
    match List.filter (startsAt stepIx) (notes t), synths !! id t with
    | n :: ns, Some synth =>
        match triggerAttackRelease synth with
        | Callable => List.map (triggerOf (id t) time) (n :: ns)
        | Throwing => [ConsoleError "Error playing notes for track"]
        | NotAFunction => [ConsoleWarn "Synth is not available or was disposed"]
        end
    | _, _ => []
    end.

Definition isConsoleError (e : Event) : bool :=
  match e with ConsoleError _ => true | _ => false end.

Definition isTrigger (e : Event) : bool :=
  match e with VoiceTrigger _ _ _ _ => true | _ => false end.

(** Tone's notation [<N>n] names the N-th part of a whole note; a beat is
    a quarter note, so the length is 4/N beats. *)
Definition notationBeats (t : string) : option Q :=
  let cs := list_ascii_of_string t in
  let ds := takeRun isDigit cs in
  match ds, List.skipn (length ds) cs with
  | _ :: _, ["n"%char] =>
      if 0 <? digitsValue ds then Some (Qred (4 # Z.to_pos (digitsValue ds))) else None
  | _, _ => None
  end.

(** The lengths the specification lists for the duration names. *)
Definition specBeats (d : NoteDuration) : Q :=
  match d with
  | whole => 4
  | half => 2
  | quarter => 1
  | eighth => 1 # 2
  | sixteenth => 1 # 4
  end.

Definition guardedEvent (kv : string * Voice) : list Event :=
  match dispose (snd kv) with
  | Callable => [VoiceDispose (fst kv)]
  | Throwing => [ConsoleError "Error disposing synth"]
  | NotAFunction => []
  end.

Definition roundTrips (n : nat) : bool :=
  bool_decide (noteNameToMidi (midiToNoteName (Z.of_nat n)) = Int (Z.of_nat n)).




(** An action that can take tracks out of the list. *)
Definition isRemoval (a : Action) : bool :=
  match a with RemoveTrack _ => true | _ => false end.

(** The voice the synth effect builds for a track that has none. *)
Definition freshVoice (t : Track) : Voice :=
  setLevel (volume t) (newPolySynth (initVoiceFamily (instrument t))).

(** ** Music utilities: scales, clefs, text rendering *)

(** [array[i]] for a JS number that is an integer: outside the array the
    read gives [undefined], here [None]. *)
Definition arrayAt {A} (l : list A) (i : Z) : option A :=
  if i <? 0 then None else nth_error l (Z.to_nat i).

Definition chromaticScale : list string :=
  ["C"; "C#"; "D"; "D#"; "E"; "F"; "F#"; "G"; "G#"; "A"; "A#"; "B"].

(** A property read on an object literal: an own property, a property
    inherited from [Object.prototype], or none. *)
Inductive PropertyRead (A : Type) :=
  | Own (value : A)
  | Inherited
  | Absent.
Arguments Own {A} value.
Arguments Inherited {A}.
Arguments Absent {A}.

Definition objectPrototypeKeys : list string :=
  ["constructor"; "__defineGetter__"; "__defineSetter__"; "hasOwnProperty";
   "__lookupGetter__"; "__lookupSetter__"; "isPrototypeOf";
   "propertyIsEnumerable"; "toString"; "valueOf"; "__proto__"; "toLocaleString"].

Definition majorPattern : list Z := [0; 2; 4; 5; 7; 9; 11].

Definition scalePatterns (scale : string) : PropertyRead (list Z) :=
  if String.eqb scale "major" then Own majorPattern
  else if String.eqb scale "minor" then Own [0; 2; 3; 5; 7; 8; 10]
  else if String.eqb scale "pentatonic" then Own [0; 2; 4; 7; 9]
  else if String.eqb scale "blues" then Own [0; 3; 5; 6; 7; 10]
  else if oneOf scale objectPrototypeKeys then Inherited
  else Absent.

Definition scaleNote (keyIndex interval : Z) : option string :=
  let noteIndex := Z.rem (keyIndex + interval) 12 in
  arrayAt chromaticScale noteIndex.

(** [getScaleNotes]: an entry of the result is [None] where the array
    read gave [undefined]; the result is [None] when
    [scalePatterns[scale]] is an inherited member, which has no [map], so
    the call throws. *)
Definition getScaleNotes (key scale : string) : option (list (option string)) :=
  let keyIndex := indexOf key chromaticScale in
  match scalePatterns scale with
  | Own pattern => Some (List.map (scaleNote keyIndex) pattern)
  | Absent => Some (List.map (scaleNote keyIndex) majorPattern)
  | Inherited => None
  end.

Inductive Clef := treble | bass.

#[global] Instance Clef_eq_dec : EqDecision Clef.
Proof. solve_decision. Defined.

(** [toLowerCase] for a name written in ASCII: the letters [A]-[Z] are
    lowered, every other character is kept. *)
Definition lowerChar (c : ascii) : ascii :=
  if (65 <=? charCode c) && (charCode c <=? 90)
  then ascii_of_nat (nat_of_ascii c + 32) else c.

Definition toLowerCase (s : string) : list ascii :=
  List.map lowerChar (list_ascii_of_string s).

Fixpoint startsWith (cs needle : list ascii) : bool :=
  match needle, cs with
  | [], _ => true
  | _ :: _, [] => false
  | n :: needle', c :: cs' => Ascii.eqb c n && startsWith cs' needle'
  end.

(** [String.prototype.includes] *)
Fixpoint includes (cs needle : list ascii) : bool :=
  startsWith cs needle ||
  match cs with
  | [] => false
  | _ :: rest => includes rest needle
  end.

Definition bassInstruments : list string :=
  ["cello"; "bass"; "double bass"; "tuba"; "bassoon"; "trombone";
   "bass guitar"; "contrabass"].

(** The [for ... of] loop with its early [return]. *)
Fixpoint firstIncluded (lowered : list ascii) (names : list string) : Clef :=
  match names with
  | [] => treble
  | bassInst :: rest =>
      if includes lowered (list_ascii_of_string bassInst) then bass
      else firstIncluded lowered rest
  end.

Definition getInstrumentClef (instrument : string) : Clef :=
  firstIncluded (toLowerCase instrument) bassInstruments.

(** [printMusicAsASCII] *)
Definition asciiPitches : list string :=
  ["B5"; "A5"; "G5"; "F5"; "E5"; "D5"; "C5"; "B4"; "A4"; "G4"; "F4"; "E4"; "D4"; "C4"].

Definition emptyCell : string := "·".
Definition filledCell : string := "●".

Definition emptyGrid : list (list string) :=
  List.map (fun _ => repeat emptyCell 16) asciiPitches.

(** [grid[rowIndex][note.step] = "●"] under its guard.  A negative step
    passes the guard, but the assignment then makes a property of the
    row, not an element, and the later [join] does not see it. *)
Definition placeNote (grid : list (list string)) (note : Note) : list (list string) :=
  let rowIndex := indexOf (pitch note) asciiPitches in
  if (0 <=? rowIndex) && (step note <? 16) then
    if step note <? 0 then grid
    else
      match grid !! Z.to_nat rowIndex with
      | Some row => <[Z.to_nat rowIndex := <[Z.to_nat (step note) := filledCell]> row]> grid
      | None => grid
      end
  else grid.

Definition asciiGrid (notes : list Note) : list (list string) :=
  foldl placeNote emptyGrid notes.

Fixpoint join (sep : string) (l : list string) : string :=
  match l with
  | [] => ""
  | [x] => x
  | x :: rest => String.append x (String.append sep (join sep rest))
  end.

Definition padEnd (n : nat) (s : string) : string :=
  String.append s (string_of_list_ascii (repeat " "%char (n - String.length s))).

Definition newline : string := String (ascii_of_nat 10) EmptyString.

Definition gridLine (p : string) (row : list string) : string :=
  String.append (padEnd 4 p)
    (String.append " | " (String.append (join " " row) (String.append " |" newline))).

Definition printMusicAsASCII (notes : list Note) : string :=
  let grid := asciiGrid notes in
  let rows := List.map (fun pr => gridLine (fst pr) (snd pr)) (combine asciiPitches grid) in
  String.append (String.concat "" rows)
    (String.append "     | "
       (String.append (join " " (List.map (fun i => natToString (i + 1)) (seq 0 16)))
          (String.append " |" newline))).

(** ** Dropping a note on a staff ([MultiStaffNotation]) *)

Definition TREBLE_CLEF_PITCHES : list string :=
  ["C6"; "B5"; "A5"; "G5"; "F5"; "E5"; "D5"; "C5"; "B4"; "A4"; "G4"; "F4";
   "E4"; "D4"; "C4"; "B3"; "A3"; "G3"; "F3"; "E3"; "D3"; "C3"].

Definition BASS_CLEF_PITCHES : list string :=
  ["E4"; "D4"; "C4"; "B3"; "A3"; "G3"; "F3"; "E3"; "D3"; "C3"; "B2"; "A2";
   "G2"; "F2"; "E2"; "D2"; "C2"].

(** What [Math.floor(x / stepWidth)] can be: an integer, or, when
    [stepWidth] is 0, an infinity or [NaN]. *)
Inductive Floored := Finite (z : Z) | PlusInfinity | MinusInfinity | FlooredNaN.

(** [step >= 0 && step < totalSteps] *)
Definition stepInRange (step : Floored) (totalSteps : Z) : option Z :=
  match step with
  | Finite z => if (0 <=? z) && (z <? totalSteps) then Some z else None
  | _ => None
  end.

Definition clefPitches (c : Clef) : list string :=
  match c with treble => TREBLE_CLEF_PITCHES | bass => BASS_CLEF_PITCHES end.

(** [PITCHES[Math.min(Math.max(0, pitchPosition), PITCHES.length - 1)]] *)
Definition pitchAt (c : Clef) (pitchPosition : Z) : option string :=
  let pitches := clefPitches c in
  arrayAt pitches (Z.min (Z.max 0 pitchPosition) (Z.of_nat (length pitches) - 1)).

Record AddNoteCall := mkAddNoteCall {
  call_trackId : string;
  call_step : Z;
  call_pitch : string;
  call_duration : NoteDuration
}.

(** [handleDrop], from the values its arithmetic on pixels produces:
    [step] is [Math.floor(x / stepWidth)] and [pitchPosition] is
    [Math.round((y - 30) / 7.5)].  [staffMounted] says whether
    [staffRefs.current[trackId]] is set, [dropped] is the duration carried
    by the drag, if any.  The result is the call of [onAddNote] that the
    handler makes, if it makes one. *)
Definition handleDrop (tracks : list Track) (totalSteps : Z)
    (activeDuration : NoteDuration) (trackId : string) (staffMounted : bool)
    (dropped : option NoteDuration) (step : Floored) (pitchPosition : Z)
    : option AddNoteCall :=
  if staffMounted then
    let duration := default activeDuration dropped in
    let clef :=
      match List.find (hasId trackId) tracks with
      | Some track => getInstrumentClef (instrument track)
      | None => treble
      end in
    match stepInRange step totalSteps, pitchAt clef pitchPosition with
    | Some st, Some p =>
        if String.eqb p "" then None
        else Some (mkAddNoteCall trackId st p duration)
    | _, _ => None
    end
  else None.

(** Boolean checks used to settle finite tables by evaluation. *)
Fixpoint distinctb (l : list (option string)) : bool :=
  match l with
  | [] => true
  | x :: rest => negb (existsb (fun y => bool_decide (x = y)) rest) && distinctb rest
  end.

Definition namedIn (names : list string) (n : option string) : bool :=
  match n with Some name => oneOf name names | None => false end.

Definition scaleWellFormed (key : string) (pattern : list Z) : bool :=
  let notes := List.map (scaleNote (indexOf key chromaticScale)) pattern in
  bool_decide (hd_error notes = Some (Some key)) &&
  forallb (namedIn chromaticScale) notes && distinctb notes.

Definition ownPatterns : list (list Z) :=
  [majorPattern; [0; 2; 3; 5; 7; 8; 10]; [0; 2; 4; 7; 9]; [0; 3; 5; 6; 7; 10]].

(** The names that decide the clef: every entry of [bassInstruments]
    contains one of them. *)
Definition bassWords : list string := ["cello"; "bass"; "tuba"; "trombone"].

(** The cell of a grid at a row and a column. *)
Definition cellAt (grid : list (list string)) (r c : nat) : option string :=
  match grid !! r with
  | Some row => row !! c
  | None => None
  end.

(** A note that belongs to the cell (row [r], column [c]) of the grid. *)
Definition hitsCell (r c : nat) (n : Note) : bool :=
  Z.eqb (indexOf (pitch n) asciiPitches) (Z.of_nat r) && Z.eqb (step n) (Z.of_nat c).

Definition gridShaped (grid : list (list string)) : Prop :=
  length grid = 14%nat /\ Forall (fun row => length row = 16%nat) grid.

(** The number that [noteNameToMidi] computes from the parsed octave and
    the index of the note within the octave. *)
Definition midiFrom (octave : Number) (noteIndex : Z) : Number :=
  numAdd (numMul (numAdd octave (Int 1)) (Int 12)) (Int noteIndex).

Definition letterIndex (n : ascii) : Z := indexOf (String n EmptyString) noteNames.

(** One step of [digitsValue]. *)
Definition digitStep (acc : Z) (d : ascii) : Z := 10 * acc + (charCode d - 48).

(** ** Music utilities: the text notation *)

(** [[...notes].sort((a, b) => a.step - b.step)]: the sort is stable, so
    the result is the one of inserting the notes one by one, each behind
    the notes whose step is not larger. *)
Fixpoint insertByStep (n : Note) (sorted : list Note) : list Note :=
  match sorted with
  | [] => [n]
  | x :: rest =>
      if step n <? step x then n :: x :: rest else x :: insertByStep n rest
  end.

Definition sortByStep (notes : list Note) : list Note :=
  foldl (fun acc n => insertByStep n acc) [] notes.

(** The body of [sortedNotes.forEach]: create the array when the key is
    new, then push the pitch. *)
Definition pushPitch (notesByStep : gmap Z (list string)) (note : Note)
    : gmap Z (list string) :=
  <[step note := (default [] (notesByStep !! step note) ++ [pitch note])%list]> notesByStep.

(** One round of the [for] loop over the sixteen steps. *)
Definition notationStep (notesByStep : gmap Z (list string)) (notation : string)
    (st : Z) : string :=
  let notation :=
    if Z.rem st 4 =? 0
    then String.append notation (if 0 <? st then " | " else "")
    else notation in
  let stepNotes := default [] (notesByStep !! st) in
  match stepNotes with
  | _ :: _ =>
      String.append notation (String.append "[" (String.append (join "," stepNotes) "]"))
  | [] => String.append notation "."
  end.

Definition generateMusicNotation (notes : list Note) (key scale : string) : string :=
  let sortedNotes := sortByStep notes in
  let notesByStep := foldl pushPitch ∅ sortedNotes in
  let header :=
    String.append "Key: " (String.append key (String.append " "
      (String.append scale (String.append newline newline)))) in
  String.append (foldl (notationStep notesByStep) header (stepIndices 16)) " |".

(** The pitches that start at a step, in the order of the input. *)
Definition pitchesAt (notes : list Note) (st : Z) : list string :=
  List.map pitch (List.filter (startsAt st) notes).

(** The text of one step, from the pitches that start there. *)
Definition cellText (st : Z) (pitches : list string) : string :=
  String.append
    (if Z.rem st 4 =? 0 then (if 0 <? st then " | " else "") else "")
    (match pitches with
     | _ :: _ => String.append "[" (String.append (join "," pitches) "]")
     | [] => "."
     end).

Definition ascendingSteps (l : list Note) : Prop :=
  StronglySorted (fun a b => step a <= step b) l.

(** * Properties *)

(** ** Track list invariant *)

Lemma sameKey_spec st p n : sameKey st p n = true <-> noteKey n = (st, p).
Proof.
  unfold sameKey, noteKey. rewrite andb_true_iff, Z.eqb_eq, String.eqb_eq.
  split; [intros [-> ->]; reflexivity | intros [= -> ->]; auto].
Qed.

Lemma existsb_sameKey st p ns :
  existsb (sameKey st p) ns = true <-> In (st, p) (List.map noteKey ns).
Proof.
  rewrite existsb_exists, in_map_iff. split; intros [n Hn]; exists n.
  - destruct Hn as [Hin Hk]. apply sameKey_spec in Hk. auto.
  - destruct Hn as [Hk Hin]. split; [assumption | now apply sameKey_spec].
Qed.

Lemma hasId_spec i t : hasId i t = true <-> id t = i.
Proof. unfold hasId. apply String.eqb_eq. Qed.

Lemma find_hasId_first i ts t0 :
  dominated ts -> List.find (hasId i) ts = Some t0 ->
  In t0 ts /\ id t0 = i /\ forall t, In t ts -> id t = i -> incl (keys t) (keys t0).
Proof.
  induction ts as [|a ts IH]; simpl; [discriminate|].
  intros [Ha Hd] Hf. destruct (hasId i a) eqn:E.
  - injection Hf as <-. apply hasId_spec in E. repeat split; auto.
    intros t [<- | Hin] Ht; [apply incl_refl | apply Ha; congruence].
  - destruct (IH Hd Hf) as (Hin & Hid & Hall). repeat split; auto.
    intros t [<- | Ht] Hti; [| auto].
    apply hasId_spec in Hti. congruence.
Qed.

Lemma dominated_map (f : Track -> Track) ts :
  (forall t, id (f t) = id t) ->
  (forall t u, id u = id t -> incl (keys u) (keys t) -> incl (keys (f u)) (keys (f t))) ->
  dominated ts -> dominated (List.map f ts).
Proof.
  intros Hid Hmono. induction ts as [|a ts IH]; simpl; [auto|].
  intros [Ha Hd]. split; [| auto].
  intros u Hu Hiu. apply in_map_iff in Hu as (u0 & <- & Hu0).
  rewrite !Hid in Hiu. auto.
Qed.

Lemma dominated_filter (P : Track -> bool) ts :
  dominated ts -> dominated (List.filter P ts).
Proof.
  induction ts as [|a ts IH]; simpl; [auto|].
  intros [Ha Hd]. destruct (P a); simpl; [| auto].
  split; [| auto]. intros u Hu. apply filter_In in Hu as [Hu _]. auto.
Qed.

Lemma dominated_snoc ts t :
  notes t = [] -> dominated ts -> dominated (ts ++ [t]).
Proof.
  intros Hn. induction ts as [|a ts IH]; simpl.
  - intros _. split; [intros u [] | exact I].
  - intros [Ha Hd]. split; [| auto].
    intros u Hu Hiu. apply in_app_or in Hu as [Hu | [<- | []]]; [auto|].
    unfold keys. rewrite Hn. intros x [].
Qed.

Lemma tracksInv_map (f : Track -> Track) ts :
  (forall t, id (f t) = id t) ->
  (forall t u, id u = id t -> incl (keys u) (keys t) -> incl (keys (f u)) (keys (f t))) ->
  (forall t, In t ts -> List.NoDup (keys t) -> List.NoDup (keys (f t))) ->
  tracksInv ts -> tracksInv (List.map f ts).
Proof.
  intros Hid Hmono Hnd [Hall Hd]. split; [| now apply dominated_map].
  rewrite List.Forall_forall in *. intros t Ht.
  apply in_map_iff in Ht as (t0 & <- & Ht0). auto.
Qed.

(** A map that leaves ids and notes alone keeps the invariant. *)
Lemma tracksInv_map_same_notes (f : Track -> Track) ts :
  (forall t, id (f t) = id t) -> (forall t, notes (f t) = notes t) ->
  tracksInv ts -> tracksInv (List.map f ts).
Proof.
  intros Hid Hn. apply tracksInv_map; auto; unfold keys; intros; rewrite ?Hn; auto.
Qed.

Lemma keys_withoutNote i st p t x :
  In x (keys (withoutNote i st p t)) <->
  In x (keys t) /\ (id t = i -> x <> (st, p)).
Proof.
  unfold withoutNote, keys. destruct (String.eqb (id t) i) eqn:E; simpl.
  - apply String.eqb_eq in E. rewrite !in_map_iff. split.
    + intros (n & <- & Hn). apply filter_In in Hn as [Hn Hk]. split; [eauto|].
      intros _ Hx. apply sameKey_spec in Hx. rewrite Hx in Hk. discriminate.
    + intros [(n & <- & Hn) Hne]. exists n. split; [reflexivity|].
      apply filter_In. split; [assumption|].
      destruct (sameKey st p n) eqn:K; [| reflexivity].
      apply sameKey_spec in K. now destruct (Hne E).
  - apply String.eqb_neq in E. tauto.
Qed.

Lemma NoDup_map_filter {A B} (f : A -> B) (P : A -> bool) l :
  List.NoDup (List.map f l) -> List.NoDup (List.map f (List.filter P l)).
Proof.
  induction l as [|a l IH]; simpl; [auto|].
  intros Hnd. apply List.NoDup_cons_iff in Hnd as [Hni Hnd].
  destruct (P a); simpl; [| auto].
  apply List.NoDup_cons_iff. split; [| auto].
  intros Hin. apply Hni. apply in_map_iff in Hin as (x & Hx & Hin).
  apply filter_In in Hin as [Hin _]. apply in_map_iff. eauto.
Qed.

Lemma tracksInv_withoutNote i st p ts :
  tracksInv ts -> tracksInv (List.map (withoutNote i st p) ts).
Proof.
  apply tracksInv_map.
  - intros t. unfold withoutNote. now destruct (String.eqb (id t) i).
  - intros t u Hid Hinc x Hx. apply keys_withoutNote in Hx as [Hx Hne].
    apply keys_withoutNote. split; [auto | intros; apply Hne; congruence].
  - intros t _ Hnd. unfold withoutNote, keys.
    destruct (String.eqb (id t) i); simpl; [| exact Hnd].
    now apply NoDup_map_filter.
Qed.

Lemma keys_withNote i n t :
  keys (withNote i n t) = if String.eqb (id t) i then (keys t ++ [noteKey n])%list else keys t.
Proof.
  unfold withNote, keys. destruct (String.eqb (id t) i); simpl; [| reflexivity].
  now rewrite List.map_app.
Qed.

Lemma tracksInv_withNote i n ts :
  (forall t, In t ts -> id t = i -> ~ In (noteKey n) (keys t)) ->
  tracksInv ts -> tracksInv (List.map (withNote i n) ts).
Proof.
  intros Hfresh. apply tracksInv_map.
  - intros t. unfold withNote. now destruct (String.eqb (id t) i).
  - intros t u Hid Hinc. rewrite !keys_withNote, Hid.
    destruct (String.eqb (id t) i); [| assumption].
    intros x Hx. apply in_app_or in Hx. apply in_or_app.
    destruct Hx; [left; auto | right; assumption].
  - intros t Ht Hnd. rewrite keys_withNote.
    destruct (String.eqb (id t) i) eqn:E; [| assumption].
    apply String.eqb_eq in E.
    apply List.NoDup_app; [assumption | repeat constructor; intros [] |].
    intros x Hx [<- | []]. exact (Hfresh t Ht E Hx).
Qed.

Lemma tracksInv_filter (P : Track -> bool) ts :
  tracksInv ts -> tracksInv (List.filter P ts).
Proof.
  intros [Hall Hd]. split; [| now apply dominated_filter].
  rewrite List.Forall_forall in *. intros t Ht. apply filter_In in Ht as [Ht _]. auto.
Qed.

Lemma tracksInv_snoc ts t :
  notes t = [] -> tracksInv ts -> tracksInv (ts ++ [t]).
Proof.
  intros Hn [Hall Hd]. split; [| now apply dominated_snoc].
  apply List.Forall_app. split; [assumption|].
  constructor; [| constructor]. unfold keys. rewrite Hn. constructor.
Qed.

(** ** What each part of the component does to [tracks] *)

(** A fold of steps that leave a field alone leaves it alone. *)
Lemma frame_foldl {A B} (proj : State -> B) (f : State -> A -> State) l s :
  (forall s0 x, proj (f s0 x) = proj s0) -> proj (foldl f s l) = proj s.
Proof.
  intros Hf. revert s. induction l as [|a l IH]; simpl; intros s; [reflexivity|].
  now rewrite IH, Hf.
Qed.

Lemma tracks_triggerNotes k v time ns s :
  tracks (stateOf (triggerNotes k v time ns s)) = tracks s.
Proof.
  revert s. induction ns as [|n ns IH]; simpl; intros s; [reflexivity|].
  destruct (triggerAttackRelease v); simpl; [now rewrite IH | reflexivity..].
Qed.

Lemma tracks_playTrack ix time s t : tracks (playTrack ix time s t) = tracks s.
Proof.
  unfold playTrack. destruct (muted t); [reflexivity|].
  destruct (List.filter (startsAt ix) (notes t)) as [|n ns]; [reflexivity|].
  destruct (synthsRef s !! id t) as [v|]; [| reflexivity].
  pose proof (tracks_triggerNotes (id t) v time (n :: ns) s) as H.
  destruct (triggerAttackRelease v); [| | reflexivity];
    destruct (triggerNotes (id t) v time (n :: ns) s); exact H.
Qed.

Lemma tracks_sequenceCallback q time ix s :
  tracks (sequenceCallback q time ix s) = tracks s.
Proof.
  unfold sequenceCallback. rewrite (frame_foldl tracks); [reflexivity|].
  intros. apply tracks_playTrack.
Qed.

Lemma tracks_clockTick time s : tracks (clockTick time s) = tracks s.
Proof.
  unfold clockTick. destruct (tstate (transport s)); try reflexivity.
  destruct (tickStep s); [| reflexivity].
  destruct (sequencerRef s); [| reflexivity].
  simpl. apply tracks_sequenceCallback.
Qed.

Lemma tracks_createSequence s : tracks (stateOf (createSequence s)) = tracks s.
Proof.
  unfold createSequence. destruct (sequencerRef s) as [q|]; [| reflexivity].
  destruct (seq_dispose q); reflexivity.
Qed.

Lemma tracks_recreateMissing s t : tracks (recreateMissing s t) = tracks s.
Proof. unfold recreateMissing. now destruct (synthsRef s !! id t). Qed.

Lemma tracks_playOrPause s : tracks (stateOf (playOrPause s)) = tracks s.
Proof.
  unfold playOrPause. destruct (isPlaying s); [reflexivity|].
  set (s1 := if forallb (hasSynth s) (tracks s) then s else _).
  assert (H1 : tracks s1 = tracks s).
  { subst s1. destruct (forallb _ _); [reflexivity|].
    apply (frame_foldl tracks), tracks_recreateMissing. }
  pose proof (tracks_createSequence s1) as H.
  destruct (createSequence s1); simpl in *; now rewrite H.
Qed.

Lemma tracks_togglePlayback r s : tracks (togglePlayback r s) = tracks s.
Proof.
  unfold togglePlayback.
  assert (H : forall o, tracks (stateOf o) = tracks s ->
            tracks match o with
                   | Done s' => s'
                   | Thrown _ s' => emit (ConsoleError "Error toggling playback") s'
                   end = tracks s) by (intros [?|? ?]; auto).
  apply H. destruct (contextRunning s); [| destruct r].
  - apply tracks_playOrPause.
  - apply (tracks_playOrPause (setContextRunning true s)).
  - reflexivity.
Qed.

Lemma tracks_resetPlayback s : tracks (resetPlayback s) = tracks s.
Proof. unfold resetPlayback. now destruct (bool_decide _). Qed.

Lemma tracks_disposeEach vs s : tracks (stateOf (disposeEach vs s)) = tracks s.
Proof.
  revert s. induction vs as [|[k v] vs IH]; simpl; intros s; [reflexivity|].
  destruct (dispose v); simpl; [now rewrite IH | reflexivity..].
Qed.

Lemma tracks_cleanupSynths s : tracks (stateOf (cleanupSynths s)) = tracks s.
Proof.
  unfold cleanupSynths.
  pose proof (tracks_disposeEach (map_to_list (synthsRef s)) s) as H.
  destruct (disposeEach _ s) as [s1|e s1]; simpl in *; [| assumption].
  destruct (sequencerRef s1) as [q|]; [destruct (seq_dispose q) |]; simpl; assumption.
Qed.

Lemma tracks_createMissing s t : tracks (createMissing s t) = tracks s.
Proof. unfold createMissing. now destruct (synthsRef s !! id t). Qed.

Lemma tracks_syncVolume s t : tracks (syncVolume s t) = tracks s.
Proof. unfold syncVolume. now destruct (synthsRef s !! id t). Qed.

Lemma tracks_initSynths s : tracks (initSynths s) = tracks s.
Proof.
  unfold initSynths. rewrite (frame_foldl tracks) by apply tracks_syncVolume.
  apply (frame_foldl tracks), tracks_createMissing.
Qed.

Lemma tracks_tracksEffect s : tracks (stateOf (tracksEffect s)) = tracks s.
Proof.
  unfold tracksEffect. pose proof (tracks_cleanupSynths s) as H.
  destruct (cleanupSynths s); simpl in *; now rewrite tracks_initSynths.
Qed.

Lemma tracks_removeTrack i s :
  tracks (stateOf (removeTrack i s)) =
  if (length (tracks s) <=? 1)%nat then tracks s
  else List.filter (otherThan i) (tracks s).
Proof.
  unfold removeTrack. destruct (length (tracks s) <=? 1)%nat; [reflexivity|].
  destruct (String.eqb (currentTrackId s) i); [| reflexivity].
  destruct (List.filter (otherThan i) (tracks s)); reflexivity.
Qed.

Lemma tracks_updateTrackVolume i v s :
  tracks (updateTrackVolume i v s) = List.map (withVolume i v) (tracks s).
Proof. unfold updateTrackVolume. simpl. now destruct (synthsRef s !! i). Qed.

(** ** The invariant holds along every session *)

Lemma tracksInv_addNote t st p d s :
  tracksInv (tracks s) -> tracksInv (tracks (addNote t st p d s)).
Proof.
  intros Hinv. unfold addNote.
  destruct (List.find (hasId t) (tracks s)) as [t0|] eqn:Hf; [| assumption].
  destruct (existsb (sameKey st p) (notes t0)) eqn:Hex; simpl.
  - now apply tracksInv_withoutNote.
  - apply tracksInv_withNote; [| assumption].
    intros u Hu Hid Hin. destruct Hinv as [_ Hd].
    destruct (find_hasId_first t (tracks s) t0 Hd Hf) as (_ & _ & Hdom).
    apply (Hdom u Hu Hid) in Hin. simpl in Hin.
    apply existsb_sameKey in Hin. simpl in Hin. congruence.
Qed.

(** A per-track update guarded by [t.id === i] that keeps ids and notes. *)
Ltac guarded_update f :=
  let t := fresh "t" in
  intros t; unfold f;
  match goal with |- context [String.eqb (id t) ?i] => now destruct (String.eqb (id t) i) end.

Lemma tracksInv_run a s :
  tracksInv (tracks s) -> tracksInv (tracks (stateOf (run a s))).
Proof.
  intros Hinv. destruct a; simpl.
  - now apply tracksInv_snoc.
  - rewrite tracks_removeTrack. destruct (length (tracks s) <=? 1)%nat;
      [assumption | now apply tracksInv_filter].
  - apply tracksInv_map_same_notes; [| | assumption]; guarded_update withInstrument.
  - rewrite tracks_updateTrackVolume.
    apply tracksInv_map_same_notes; [| | assumption]; guarded_update withVolume.
  - apply tracksInv_map_same_notes; [| | assumption]; guarded_update withMuteToggled.
  - now apply tracksInv_addNote.
  - apply tracksInv_map; [| | | assumption].
    + guarded_update withNoNotes.
    + intros t u Hid Hinc. unfold withNoNotes. rewrite Hid.
      destruct (String.eqb (id t) trackId); [intros x [] | assumption].
    + intros t _ Hnd. unfold withNoNotes.
      destruct (String.eqb (id t) trackId); [constructor | assumption].
  - assumption.
  - now rewrite tracks_togglePlayback.
  - now rewrite tracks_resetPlayback.
  - assumption.
  - now rewrite tracks_clockTick.
  - now rewrite tracks_tracksEffect.
  - assumption.
Qed.

Lemma tracksInv_initial : tracksInv (tracks initialState).
Proof.
  split; simpl.
  - repeat constructor.
  - split; [intros u [] | exact I].
Qed.

Lemma tracksInv_reachable s : reachable s -> tracksInv (tracks s).
Proof.
  induction 1 as [|a s _ IH]; [apply tracksInv_initial | now apply tracksInv_run].
Qed.

Lemma reachable_session acts s : reachable s -> reachable (session acts s).
Proof.
  revert s. induction acts as [|a acts IH]; simpl; intros s H; [assumption|].
  apply IH. now constructor.
Qed.

(** Read on positions: two notes of one track that agree on step and
    pitch sit at the same position of the note list. *)
Lemma notes_share_key_same_position s t n1 n2 (i j : nat) :
  reachable s -> In t (tracks s) ->
  nth_error (notes t) i = Some n1 -> nth_error (notes t) j = Some n2 ->
  step n1 = step n2 -> pitch n1 = pitch n2 -> i = j.
Proof.
  intros Hr Ht H1 H2 Hs Hp.
  destruct (tracksInv_reachable s Hr) as [Hall _].
  rewrite List.Forall_forall in Hall. specialize (Hall t Ht).
  unfold keys in Hall.
  assert (Hi : (i < length (List.map noteKey (notes t)))%nat).
  { rewrite length_map. apply nth_error_Some. congruence. }
  apply (proj1 (List.NoDup_nth_error _) Hall i j Hi).
  rewrite !nth_error_map, H1, H2. simpl. unfold noteKey. congruence.
Qed.

(** C4: in every state reachable from the initial one-track state by the
    handlers, effects and clock ticks of the component, no track holds
    two notes with the same (step, pitch): the list of the (step, pitch)
    pairs of its notes has no repetition. *)
Theorem no_duplicate_notes_reachable (s : State) (t : Track) :
  reachable s -> In t (tracks s) -> List.NoDup (List.map noteKey (notes t)).
Proof.
  intros Hr Ht. destruct (tracksInv_reachable s Hr) as [Hall _].
  rewrite List.Forall_forall in Hall. exact (Hall t Ht).
Qed.

Lemma no_duplicate_notes_reachable_witness :
  let s := session [AddNote "1" 0 "C4" (Some quarter); AddTrack;
                    AddNote "1" 1 "C4" None; AddNote "1" 0 "C4" (Some half);
                    AddNote "1" 0 "E4" (Some whole)] initialState in
  let t := mkTrack "1" "piano" [mkNote 1 "C4" (Some quarter); mkNote 0 "E4" (Some whole)]
             0 false in
  reachable s /\ In t (tracks s) /\ List.NoDup [(1, "C4"); (0, "E4")].
Proof.
  intros s t.
  assert (Hr : reachable s) by apply reachable_session, reach_init.
  assert (Ht : In t (tracks s)) by (vm_compute; left; reflexivity).
  split; [exact Hr|]. split; [exact Ht|].
  exact (no_duplicate_notes_reachable s t Hr Ht).
Defined.

(** ** addTrack *)

Lemma addTrack_appends s :
  let newTrackId := natToString (length (tracks s) + 1) in
  tracks (addTrack s) = (tracks s ++ [mkTrack newTrackId "piano" [] 0 false])%list /\
  currentTrackId (addTrack s) = newTrackId.
Proof. split; reflexivity. Qed.

(** From the initial single track "1": two tracks, the new id is "2",
    and it is the selected one. *)
Lemma addTrack_from_initial :
  length (tracks (addTrack initialState)) = 2%nat /\
  List.map id (tracks (addTrack initialState)) = ["1"; "2"] /\
  currentTrackId (addTrack initialState) = "2".
Proof. repeat split. Qed.

(** C1: the new id is the track count plus one, so after a removal it is
    an id that was issued before.  Adding a track, removing track "1" and
    adding again gives two live tracks that both carry the id "2". *)
Theorem addTrack_reissues_live_id :
  let s := session [AddTrack; RemoveTrack "1"] initialState in
  List.map id (tracks s) = ["2"] /\
  List.map id (tracks (addTrack s)) = ["2"; "2"] /\
  currentTrackId (addTrack s) = "2".
Proof. repeat split. Qed.

(** ** removeTrack *)

Lemma removeTrack_last_refused i s :
  (length (tracks s) <= 1)%nat -> removeTrack i s = Done s.
Proof.
  intros H. unfold removeTrack. apply Nat.leb_le in H. now rewrite H.
Qed.

Lemma currentTrackId_releaseVoice k s :
  currentTrackId (releaseVoice k s) = currentTrackId s.
Proof.
  unfold releaseVoice. destruct (synthsRef s !! k) as [v|]; [| reflexivity].
  destruct (releaseAll v); [destruct (dispose v) | |]; reflexivity.
Qed.

Lemma filter_otherThan_In i ts t :
  In t (List.filter (otherThan i) ts) <-> In t ts /\ id t <> i.
Proof.
  rewrite filter_In. unfold otherThan. rewrite negb_true_iff, String.eqb_neq. tauto.
Qed.

Lemma filter_otherThan_length i ts :
  List.NoDup (List.map id ts) -> In i (List.map id ts) ->
  S (length (List.filter (otherThan i) ts)) = length ts.
Proof.
  induction ts as [|a ts IH]; simpl; [intros _ []|].
  intros Hnd Hin. apply List.NoDup_cons_iff in Hnd as [Hni Hnd].
  unfold otherThan at 1. destruct (String.eqb (id a) i) eqn:E; simpl.
  - apply String.eqb_eq in E. f_equal.
    rewrite (forallb_filter_id (otherThan i) ts); [reflexivity|].
    apply forallb_forall. intros u Hu. unfold otherThan.
    apply negb_true_iff, String.eqb_neq. intros Hui. apply Hni.
    apply in_map_iff. exists u. split; [congruence | assumption].
  - apply String.eqb_neq in E. f_equal. apply IH; [assumption|].
    destruct Hin as [Hai | Hin]; [contradiction | assumption].
Qed.

(** With pairwise distinct track ids and more than one track,
    [removeTrack] returns, drops exactly the track [i], and leaves a
    selection that names a remaining track whenever the old one did. *)
Lemma removeTrack_distinct_ids i s :
  List.NoDup (List.map id (tracks s)) -> In i (List.map id (tracks s)) ->
  (1 < length (tracks s))%nat -> In (currentTrackId s) (List.map id (tracks s)) ->
  exists s', removeTrack i s = Done s' /\
    tracks s' = List.filter (otherThan i) (tracks s) /\
    S (length (tracks s')) = length (tracks s) /\
    ~ In i (List.map id (tracks s')) /\
    In (currentTrackId s') (List.map id (tracks s')).
Proof.
  intros Hnd Hin Hlen Hcur. unfold removeTrack.
  destruct (length (tracks s) <=? 1)%nat eqn:E; [apply Nat.leb_le in E; lia|].
  pose proof (filter_otherThan_length i (tracks s) Hnd Hin) as Hl.
  assert (Hgone : ~ In i (List.map id (List.filter (otherThan i) (tracks s)))).
  { intros H. apply in_map_iff in H as (u & Hu & H).
    apply filter_otherThan_In in H. tauto. }
  destruct (String.eqb (currentTrackId s) i) eqn:Ec.
  - destruct (List.filter (otherThan i) (tracks s)) as [|t rest] eqn:Ef; simpl in Hl; [lia|].
    eexists. split; [reflexivity|]. simpl. repeat split; auto.
  - apply String.eqb_neq in Ec.
    eexists. split; [reflexivity|]. simpl. repeat split; auto.
    rewrite currentTrackId_releaseVoice. apply in_map_iff in Hcur as (u & Hu & Hcur).
    apply in_map_iff. exists u. split; [assumption|].
    apply filter_otherThan_In. split; [assumption | congruence].
Qed.

(** C5: with two tracks that both carry the id "2" (the state that
    [addTrack] produces after a removal) [removeTrack "2"] is not refused,
    drops both tracks, and throws while it looks for a track to select:
    the list is left empty and the selection names no track. *)
Theorem removeTrack_duplicate_ids_empties_list :
  let s := session [AddTrack; RemoveTrack "1"; AddTrack] initialState in
  List.map id (tracks s) = ["2"; "2"] /\ currentTrackId s = "2" /\
  returned (removeTrack "2" s) = false /\
  tracks (stateOf (removeTrack "2" s)) = [] /\
  currentTrackId (stateOf (removeTrack "2" s)) = "2".
Proof. repeat split. Qed.

(** ** addNote as a toggle *)

Lemma find_map_hasId (f : Track -> Track) i ts :
  (forall t, id (f t) = id t) ->
  List.find (hasId i) (List.map f ts) = option_map f (List.find (hasId i) ts).
Proof.
  intros Hid. induction ts as [|a ts IH]; simpl; [reflexivity|].
  unfold hasId at 1 3. rewrite Hid. now destruct (String.eqb (id a) i).
Qed.

Lemma id_withNote i n : forall t, id (withNote i n t) = id t.
Proof. guarded_update withNote. Qed.

Lemma id_withoutNote i st p : forall t, id (withoutNote i st p t) = id t.
Proof. guarded_update withoutNote. Qed.

Lemma find_hasId_id i ts t : List.find (hasId i) ts = Some t -> id t = i.
Proof. intros H. apply find_some in H as [_ H]. now apply hasId_spec. Qed.

Lemma trackNotes_addNote t st p d s ns :
  trackNotes t s = Some ns ->
  trackNotes t (addNote t st p d s) =
  Some (if existsb (sameKey st p) ns
        then List.filter (notSameKey st p) ns
        else (ns ++ [mkNote st p (Some (default (activeDuration s) d))])%list).
Proof.
  unfold trackNotes, addNote.
  destruct (List.find (hasId t) (tracks s)) as [t0|] eqn:Hf; [| discriminate].
  intros [= <-]. pose proof (find_hasId_id _ _ _ Hf) as Hid.
  apply String.eqb_eq in Hid.
  destruct (existsb (sameKey st p) (notes t0)); simpl.
  - rewrite find_map_hasId by apply id_withoutNote. rewrite Hf. simpl.
    unfold withoutNote. now rewrite Hid.
  - rewrite find_map_hasId by apply id_withNote. rewrite Hf. simpl.
    unfold withNote. now rewrite Hid.
Qed.

Lemma activeDuration_addNote t st p d s :
  activeDuration (addNote t st p d s) = activeDuration s.
Proof.
  unfold addNote. destruct (List.find _ _); [| reflexivity].
  now destruct (existsb _ _).
Qed.

Lemma existsb_filter_notSameKey st p ns :
  existsb (sameKey st p) (List.filter (notSameKey st p) ns) = false.
Proof.
  apply not_true_is_false. intros H. apply existsb_exists in H as (n & Hn & Hk).
  apply filter_In in Hn as [_ Hn]. unfold notSameKey in Hn. rewrite Hk in Hn. discriminate.
Qed.

Lemma filter_notSameKey_absent st p ns :
  existsb (sameKey st p) ns = false -> List.filter (notSameKey st p) ns = ns.
Proof.
  intros H. apply forallb_filter_id, forallb_forall. intros n Hn.
  unfold notSameKey. destruct (sameKey st p n) eqn:K; [| reflexivity].
  assert (existsb (sameKey st p) ns = true) by (apply existsb_exists; eauto).
  congruence.
Qed.

(** With one note at the key, removing it and putting it back at the end
    is a rearrangement. *)
Lemma filter_notSameKey_single st p ns n :
  List.NoDup (List.map noteKey ns) -> In n ns -> sameKey st p n = true ->
  Permutation (List.filter (notSameKey st p) ns ++ [n]) ns.
Proof.
  induction ns as [|a ns IH]; simpl; [intros _ []|].
  intros Hnd Hin Hk. apply List.NoDup_cons_iff in Hnd as [Hni Hnd].
  destruct Hin as [-> | Hin].
  - unfold notSameKey at 1. rewrite Hk. simpl.
    rewrite filter_notSameKey_absent.
    + symmetry. apply Permutation_cons_append.
    + apply not_true_is_false. intros H. apply existsb_sameKey in H.
      apply sameKey_spec in Hk. congruence.
  - assert (Ha : notSameKey st p a = true).
    { unfold notSameKey. destruct (sameKey st p a) eqn:K; [| reflexivity].
      exfalso. apply Hni. apply sameKey_spec in K, Hk. rewrite K, <- Hk.
      now apply in_map. }
    rewrite Ha. simpl. constructor. now apply IH.
Qed.

(** C3 (amended): for the track that [addNote] edits, the first call
    removes every note at (step, pitch) when one exists and appends the
    new note otherwise.  Two calls with the same arguments give back the
    note list itself when no note sat at (step, pitch); when one did, they
    leave the other notes followed by one note of the passed duration,
    which is the old note set (up to order) when the note that sat there
    was the only one at that key and had the passed duration. *)
Theorem addNote_twice (t : string) (st : Z) (p : string)
    (d : option NoteDuration) (s : State) (ns : list Note) :
  trackNotes t s = Some ns ->
  let s1 := addNote t st p d s in
  let s2 := addNote t st p d s1 in
  let newNote := mkNote st p (Some (default (activeDuration s) d)) in
  trackNotes t s1 =
    Some (if existsb (sameKey st p) ns
          then List.filter (notSameKey st p) ns
          else (ns ++ [newNote])%list) /\
  (existsb (sameKey st p) ns = false -> trackNotes t s2 = Some ns) /\
  (existsb (sameKey st p) ns = true ->
     trackNotes t s2 = Some (List.filter (notSameKey st p) ns ++ [newNote])%list) /\
  (List.NoDup (List.map noteKey ns) -> In newNote ns ->
     exists ns2, trackNotes t s2 = Some ns2 /\ Permutation ns2 ns).
Proof.
  intros Hns s1 s2 newNote.
  pose proof (trackNotes_addNote t st p d s ns Hns) as H1. fold s1 newNote in H1.
  pose proof (trackNotes_addNote t st p d s1 _ H1) as H2. fold s2 in H2.
  assert (Hd : activeDuration s1 = activeDuration s) by apply activeDuration_addNote.
  rewrite Hd in H2. fold newNote in H2.
  assert (Hkey : sameKey st p newNote = true) by now apply sameKey_spec.
  assert (Habsent : existsb (sameKey st p) ns = false -> trackNotes t s2 = Some ns).
  { intros E. rewrite E in H2. rewrite H2.
    rewrite existsb_app. simpl. rewrite Hkey, orb_true_r.
    rewrite List.filter_app. simpl. unfold notSameKey at 2. rewrite Hkey. simpl.
    now rewrite app_nil_r, filter_notSameKey_absent. }
  assert (Hpresent : existsb (sameKey st p) ns = true ->
            trackNotes t s2 = Some (List.filter (notSameKey st p) ns ++ [newNote])%list).
  { intros E. rewrite E in H2. rewrite H2.
    now rewrite existsb_filter_notSameKey. }
  repeat split; try assumption.
  intros Hnd Hin. eexists. split.
  - apply Hpresent. apply existsb_exists. eauto.
  - now apply filter_notSameKey_single.
Qed.

Lemma addNote_twice_witness :
  let s := addNote "1" 0 "C4" (Some quarter) initialState in
  let n := mkNote 0 "C4" (Some quarter) in
  trackNotes "1" s = Some [n] /\
  trackNotes "1" (addNote "1" 0 "C4" (Some quarter) s) = Some [] /\
  exists ns2,
    trackNotes "1" (addNote "1" 0 "C4" (Some quarter) (addNote "1" 0 "C4" (Some quarter) s))
      = Some ns2 /\ Permutation ns2 [n].
Proof.
  intros s n.
  assert (Hs : trackNotes "1" s = Some [n]) by reflexivity.
  destruct (addNote_twice "1" 0 "C4" (Some quarter) s [n] Hs) as (H1 & _ & _ & H4).
  split; [exact Hs|]. split; [exact H1|].
  apply H4.
  - repeat constructor. simpl. tauto.
  - simpl. left. reflexivity.
Defined.

(** The claim as stated fails when the note at (step, pitch) has another
    duration: a whole note at (0, "C4") toggled twice with [quarter]
    comes back as a quarter note. *)
Lemma addNote_twice_replaces_duration :
  let s := addNote "1" 0 "C4" (Some whole) initialState in
  let s2 := addNote "1" 0 "C4" (Some quarter) (addNote "1" 0 "C4" (Some quarter) s) in
  trackNotes "1" s = Some [mkNote 0 "C4" (Some whole)] /\
  trackNotes "1" s2 = Some [mkNote 0 "C4" (Some quarter)] /\
  ~ (forall ns ns2, trackNotes "1" s = Some ns -> trackNotes "1" s2 = Some ns2 ->
       forall n, In n ns <-> In n ns2).
Proof.
  intros s s2. split; [reflexivity|]. split; [reflexivity|].
  intros H. specialize (H _ _ eq_refl eq_refl (mkNote 0 "C4" (Some whole))).
  destruct H as [H _]. destruct (H (or_introl eq_refl)) as [E | []]. discriminate E.
Qed.

(** ** The sequencer callback *)

Lemma appendTrace_nil s : appendTrace [] s = s.
Proof. destruct s. unfold appendTrace. simpl. now rewrite app_nil_r. Qed.

Lemma appendTrace_app evs1 evs2 s :
  appendTrace evs2 (appendTrace evs1 s) = appendTrace (evs1 ++ evs2) s.
Proof. unfold appendTrace. simpl. now rewrite app_assoc. Qed.

Lemma emit_appendTrace e s : emit e s = appendTrace [e] s.
Proof. reflexivity. Qed.

Lemma triggerNotes_callable k v time ns s :
  triggerAttackRelease v = Callable ->
  triggerNotes k v time ns s = Done (appendTrace (List.map (triggerOf k time) ns) s).
Proof.
  intros Hv. revert s. induction ns as [|n ns IH]; simpl; intros s.
  - now rewrite appendTrace_nil.
  - rewrite Hv, IH, emit_appendTrace, appendTrace_app. reflexivity.
Qed.

Lemma playTrack_events ix time s t :
  playTrack ix time s t = appendTrace (trackEvents (synthsRef s) ix time t) s.
Proof.
  unfold playTrack, trackEvents. destruct (muted t); [now rewrite appendTrace_nil|].
  destruct (List.filter (startsAt ix) (notes t)) as [|n ns];
    [now rewrite appendTrace_nil|].
  destruct (synthsRef s !! id t) as [v|]; [| now rewrite appendTrace_nil].
  destruct (triggerAttackRelease v) eqn:Hv.
  - now rewrite triggerNotes_callable.
  - simpl. now rewrite Hv.
  - reflexivity.
Qed.

Lemma foldl_playTrack ix time ts s :
  foldl (playTrack ix time) s ts =
  appendTrace (concat (List.map (trackEvents (synthsRef s) ix time) ts)) s.
Proof.
  revert s. induction ts as [|t ts IH]; simpl; intros s.
  - now rewrite appendTrace_nil.
  - rewrite IH, playTrack_events, appendTrace_app. reflexivity.
Qed.

Lemma sequenceCallback_events q time ix s :
  sequenceCallback q time ix s =
  appendTrace (concat (List.map (trackEvents (synthsRef s) ix time) (seq_tracks q)))
    (setCurrentStep ix s).
Proof. unfold sequenceCallback. now rewrite foldl_playTrack. Qed.

Lemma trackEvents_trigger synths ix time t k p dur tm :
  In (VoiceTrigger k p dur tm) (trackEvents synths ix time t) ->
  k = id t /\ tm = time /\ muted t = false /\
  (exists n, In n (notes t) /\ step n = ix /\ pitch n = p /\
             dur = toneDuration (duration n)) /\
  (exists v, synths !! id t = Some v /\ triggerAttackRelease v = Callable).
Proof.
  unfold trackEvents. destruct (muted t); [intros []|].
  destruct (List.filter (startsAt ix) (notes t)) as [|n0 ns] eqn:Hf; [intros []|].
  destruct (synths !! id t) as [v|]; [| intros []].
  destruct (triggerAttackRelease v) eqn:Hv.
  - intros Hin. apply in_map_iff in Hin as (n & Hn & Hin).
    injection Hn as <- <- <- <-. rewrite <- Hf in Hin.
    apply filter_In in Hin as [Hin Hst]. apply Z.eqb_eq in Hst.
    repeat split; eauto.
  - intros [H | []]. discriminate H.
  - intros [H | []]. discriminate H.
Qed.

(** The claim that a voice which cannot be triggered is passed over
    without a word does not hold: with a note due at the step, a voice
    whose [triggerAttackRelease] is not a function makes the tick write a
    [console.warn] line, and one whose [triggerAttackRelease] throws makes
    it write a [console.error] line. *)
Lemma untriggerable_voice_is_logged :
  let q := mkSequence [mkTrack "1" "piano" [mkNote 0 "C4" (Some quarter)] 0 false]
             (stepIndices 16) "8n" Callable in
  let handle := mkVoice Synth 0 NotAFunction Callable Callable in
  let failing := mkVoice Synth 0 Throwing Callable Callable in
  let s1 := setSynths (<["1" := handle]> ∅) initialState in
  let s2 := setSynths (<["1" := failing]> ∅) initialState in
  trace s1 = [] /\ trace s2 = [] /\
  trace (sequenceCallback q 0 0 s1) =
    [ConsoleWarn "Synth is not available or was disposed"] /\
  trace (sequenceCallback q 0 0 s2) =
    [ConsoleError "Error playing notes for track"] /\
  trace (sequenceCallback q 0 0 s1) <> trace s1 /\
  trace (sequenceCallback q 0 0 s2) <> trace s2.
Proof. repeat split; discriminate. Qed.

(** C6 (amended): on a tick at step [ix] every trigger that is issued
    belongs to a non-muted track of the sequence, to one of its notes
    whose step is [ix], and to a voice that is present and triggerable,
    and a non-muted track with such a voice gets a trigger for each of its
    notes at [ix].  A muted track adds nothing at all, and neither does a
    track without a voice (the registry being an object literal, this is
    for an id that names no member of [Object.prototype], as all ids that
    [addTrack] issues).  A track whose voice has no
    [triggerAttackRelease] function adds, when it is not muted and has a
    note at [ix], one [console.warn] line and nothing else; a track whose
    voice throws on [triggerAttackRelease] adds, in the same situation,
    one [console.error] line and nothing else.  The tick only writes
    [currentStep] and the trace: nothing is kept for a later tick. *)
Theorem tick_triggers (q : Sequence) (time ix : Z) (s : State) :
  let s' := sequenceCallback q time ix s in
  (exists evs, trace s' = (trace s ++ evs)%list /\
     (forall k p dur tm, In (VoiceTrigger k p dur tm) evs ->
        tm = time /\
        exists t n v, In t (seq_tracks q) /\ id t = k /\ muted t = false /\
          In n (notes t) /\ step n = ix /\ pitch n = p /\
          dur = toneDuration (duration n) /\
          synthsRef s !! k = Some v /\ triggerAttackRelease v = Callable) /\
     (forall t n v, In t (seq_tracks q) -> muted t = false ->
        In n (notes t) -> step n = ix ->
        synthsRef s !! id t = Some v -> triggerAttackRelease v = Callable ->
        In (VoiceTrigger (id t) (pitch n) (toneDuration (duration n)) time) evs)) /\
  (forall t s0, muted t = true -> playTrack ix time s0 t = s0) /\
  (forall t s0, ~ In (id t) objectPrototypeKeys ->
     synthsRef s0 !! id t = None -> playTrack ix time s0 t = s0) /\
  (forall t s0 v, synthsRef s0 !! id t = Some v ->
     triggerAttackRelease v = NotAFunction ->
     playTrack ix time s0 t =
       if muted t then s0
       else match List.filter (startsAt ix) (notes t) with
            | [] => s0
            | _ :: _ => emit (ConsoleWarn "Synth is not available or was disposed") s0
            end) /\
  (forall t s0 v, synthsRef s0 !! id t = Some v ->
     triggerAttackRelease v = Throwing ->
     playTrack ix time s0 t =
       if muted t then s0
       else match List.filter (startsAt ix) (notes t) with
            | [] => s0
            | _ :: _ => emit (ConsoleError "Error playing notes for track") s0
            end) /\
  tracks s' = tracks s /\ synthsRef s' = synthsRef s /\
  sequencerRef s' = sequencerRef s /\ transport s' = transport s /\
  isPlaying s' = isPlaying s /\ currentStep s' = ix.
Proof.
  intros s'. unfold s'. rewrite sequenceCallback_events. simpl.
  split; [| split; [| split; [| split; [| split]]]].
  - eexists. split; [reflexivity|]. split.
    + intros k p dur tm Hin. apply in_concat in Hin as (evs & Hevs & Hin).
      apply in_map_iff in Hevs as (t & <- & Ht).
      apply trackEvents_trigger in Hin as (-> & -> & Hm & (n & Hn & Hst & Hp & Hd) & (v & Hv & Hc)).
      split; [reflexivity|]. exists t, n, v. repeat split; assumption.
    + intros t n v Ht Hm Hn Hst Hv Hc. apply in_concat.
      exists (trackEvents (synthsRef s) ix time t). split; [now apply in_map|].
      unfold trackEvents. rewrite Hm.
      assert (Hin : In n (List.filter (startsAt ix) (notes t))).
      { apply filter_In. split; [assumption | now apply Z.eqb_eq]. }
      destruct (List.filter (startsAt ix) (notes t)) as [|n0 ns]; [destruct Hin|].
      rewrite Hv, Hc. now apply (in_map (triggerOf (id t) time)) in Hin.
  - intros t s0 Hm. unfold playTrack. now rewrite Hm.
  - intros t s0 _ Hv. unfold playTrack. rewrite Hv.
    destruct (muted t); [reflexivity|]. now destruct (List.filter _ _).
  - intros t s0 v Hv Hc. unfold playTrack. rewrite Hv, Hc.
    destruct (muted t); [reflexivity|]. now destruct (List.filter _ _).
  - intros t s0 v Hv Hc. unfold playTrack. rewrite Hv, Hc.
    destruct (muted t); [reflexivity|].
    destruct (List.filter _ _) as [|n ns]; [reflexivity|].
    simpl. now rewrite Hc.
  - repeat split.
Qed.

Lemma tick_triggers_witness :
  let q := mkSequence
             [mkTrack "1" "piano" [mkNote 0 "C4" (Some quarter); mkNote 1 "E4" (Some half)] 0 false;
              mkTrack "2" "violin" [mkNote 0 "G4" (Some whole)] 0 true;
              mkTrack "3" "flute" [mkNote 0 "A4" (Some eighth)] 0 false]
             (stepIndices 16) "8n" Callable in
  let s := setSynths (<["1" := newPolySynth Synth]> (<["2" := newPolySynth AMSynth]> ∅))
             initialState in
  trace (sequenceCallback q 7 0 s) = [VoiceTrigger "1" "C4" "4n" 7] /\
  currentStep (sequenceCallback q 7 1 s) = 1.
Proof.
  intros q s. split; [reflexivity|].
  exact (proj2 (proj2 (proj2 (proj2 (proj2 (proj2 (proj2 (proj2 (proj2 (proj2
           (tick_triggers q 7 1 s))))))))))).
Defined.

(** ** Note lengths *)


(** The [default] arm of the switch is the one for a note that carries no
    duration; it requests "8n".  No note of a reachable state takes it
    ([durationsInv_reachable] below). *)
Lemma toneDuration_default_arm :
  toneDuration None = "8n" /\
  notationBeats (toneDuration None) = Some (specBeats eighth).
Proof. split; reflexivity. Qed.

(** *** Fields that the engine-facing code leaves alone *)

Section Frame.
Context {B : Type} (proj : State -> B).
Hypothesis proj_emit : forall e s, proj (emit e s) = proj s.
Hypothesis proj_setSynths : forall m s, proj (setSynths m s) = proj s.
Hypothesis proj_setCurrentStep : forall n s, proj (setCurrentStep n s) = proj s.
Hypothesis proj_setTransport : forall t s, proj (setTransport t s) = proj s.
Hypothesis proj_setTracks : forall ts s, proj (setTracks ts s) = proj s.
Hypothesis proj_setCurrentTrackId : forall i s, proj (setCurrentTrackId i s) = proj s.














End Frame.

(** *** The installed sequence *)






(** *** Every note names its duration *)







(** *** The active duration *)






(** *** The triggers of a clock tick *)




(** ** Voice allocation *)

Lemma oneOf_false x l : ~ In x l -> oneOf x l = false.
Proof.
  intros H. unfold oneOf. apply not_true_is_false. intros E.
  apply existsb_exists in E as (y & Hy & E). apply String.eqb_eq in E. congruence.
Qed.

Lemma createMissing_lookup s t k :
  is_Some (synthsRef s !! k) -> is_Some (synthsRef (createMissing s t) !! k).
Proof.
  intros H. unfold createMissing. destruct (synthsRef s !! id t) eqn:E; [assumption|].
  simpl. destruct (decide (id t = k)) as [->|Hne].
  - rewrite lookup_insert_eq. eauto.
  - now rewrite lookup_insert_ne.
Qed.

Lemma createMissing_here s t : is_Some (synthsRef (createMissing s t) !! id t).
Proof.
  unfold createMissing. destruct (synthsRef s !! id t) eqn:E; [eauto|].
  simpl. rewrite lookup_insert_eq. eauto.
Qed.

Lemma foldl_createMissing_lookup ts s k :
  is_Some (synthsRef s !! k) -> is_Some (synthsRef (foldl createMissing s ts) !! k).
Proof.
  revert s. induction ts as [|t ts IH]; simpl; intros s H; [assumption|].
  apply IH. now apply createMissing_lookup.
Qed.

Lemma foldl_createMissing_all ts s t :
  In t ts -> is_Some (synthsRef (foldl createMissing s ts) !! id t).
Proof.
  revert s. induction ts as [|a ts IH]; simpl; intros s; [intros []|].
  intros [-> | Hin]; [| now apply IH].
  apply foldl_createMissing_lookup, createMissing_here.
Qed.

Lemma syncVolume_lookup s t k :
  is_Some (synthsRef s !! k) -> is_Some (synthsRef (syncVolume s t) !! k).
Proof.
  intros H. unfold syncVolume. destruct (synthsRef s !! id t) eqn:E; [| assumption].
  simpl. destruct (decide (id t = k)) as [->|Hne].
  - rewrite lookup_insert_eq. eauto.
  - now rewrite lookup_insert_ne.
Qed.

Lemma foldl_syncVolume_lookup ts s k :
  is_Some (synthsRef s !! k) -> is_Some (synthsRef (foldl syncVolume s ts) !! k).
Proof.
  revert s. induction ts as [|t ts IH]; simpl; intros s H; [assumption|].
  apply IH. now apply syncVolume_lookup.
Qed.

(** C8: the registry lookup gives a family for every identifier, and an
    identifier outside the registry, "bass" for one, gets the family of
    piano, organ, harpsichord and synthesizer, in the initialising effect
    and in [updateTrackInstrument] alike.  So after the effect every
    track has a voice, and [updateTrackInstrument] installs one whatever
    the identifier. *)
Theorem voice_allocation_total (instr : string) :
  (~ In instr registry ->
     initVoiceFamily instr = Synth /\ updateVoiceFamily instr = Synth /\
     Forall (fun known => initVoiceFamily known = initVoiceFamily instr) keyboardCases) /\
  ~ In "bass" registry /\
  initVoiceFamily "bass" = initVoiceFamily "piano" /\
  (forall s t, In t (tracks s) -> is_Some (synthsRef (initSynths s) !! id t)) /\
  (forall s i, exists v, synthsRef (updateTrackInstrument i instr s) !! i = Some v /\
                         family v = updateVoiceFamily instr).
Proof.
  split; [| split; [| split; [| split]]].
  - intros Hout. unfold registry in Hout. rewrite !in_app_iff in Hout.
    assert (H : initVoiceFamily instr = Synth).
    { unfold initVoiceFamily. rewrite !oneOf_false by tauto. reflexivity. }
    split; [exact H|]. split; [exact H|]. rewrite H. repeat constructor.
  - unfold registry, keyboardCases, stringCases, woodwindCases, brassCases,
      percussionCases. simpl. intros H.
    repeat (destruct H as [H | H]; [discriminate H|]). exact H.
  - reflexivity.
  - intros s t Ht. unfold initSynths. apply foldl_syncVolume_lookup.
    now apply foldl_createMissing_all.
  - intros s i. unfold updateTrackInstrument. simpl. rewrite lookup_insert_eq.
    eexists. split; [reflexivity|]. now destruct (List.find (hasId i) (tracks s)).
Qed.

Lemma voice_allocation_total_witness :
  initVoiceFamily "kazoo" = Synth /\ updateVoiceFamily "kazoo" = Synth /\
  Forall (fun known => initVoiceFamily known = initVoiceFamily "kazoo") keyboardCases.
Proof.
  apply (proj1 (voice_allocation_total "kazoo")).
  unfold registry, keyboardCases, stringCases, woodwindCases, brassCases,
    percussionCases. simpl. intros H.
  repeat (destruct H as [H | H]; [discriminate H|]). exact H.
Defined.

(** ** Disposal errors *)

Lemma trace_releaseVoice_error k s v :
  synthsRef s !! k = Some v ->
  releaseAll v <> Callable \/ dispose v <> Callable ->
  In (ConsoleError "Error disposing synth for track") (trace (releaseVoice k s)) /\
  synthsRef (releaseVoice k s) !! k = Some v.
Proof.
  intros Hv Hbad. unfold releaseVoice. rewrite Hv.
  destruct (releaseAll v) eqn:Hr; [destruct (dispose v) eqn:Hd |..]; simpl;
    try (split; [apply in_or_app; right; now left | assumption]).
  destruct Hbad; congruence.
Qed.

(** A failing [releaseAll] or [dispose] does not stop [removeTrack]: the
    error is logged, the track leaves the list, and a throw can only come
    from an empty remainder. *)
Lemma removeTrack_survives_voice_error i s v :
  (1 < length (tracks s))%nat -> synthsRef s !! i = Some v ->
  releaseAll v <> Callable \/ dispose v <> Callable ->
  tracks (stateOf (removeTrack i s)) = List.filter (otherThan i) (tracks s) /\
  In (ConsoleError "Error disposing synth for track") (trace (stateOf (removeTrack i s))) /\
  (List.filter (otherThan i) (tracks s) <> [] -> returned (removeTrack i s) = true).
Proof.
  intros Hlen Hv Hbad.
  destruct (trace_releaseVoice_error i s v Hv Hbad) as [Hlog _].
  unfold removeTrack.
  destruct (length (tracks s) <=? 1)%nat eqn:E; [apply Nat.leb_le in E; lia|].
  destruct (String.eqb (currentTrackId s) i);
    [destruct (List.filter (otherThan i) (tracks s)) |]; simpl; repeat split;
    try assumption; try congruence.
Qed.

Lemma disposeEachGuarded_events vs s :
  disposeEachGuarded vs s = appendTrace (concat (List.map guardedEvent vs)) s.
Proof.
  revert s. induction vs as [|[k v] vs IH]; simpl; intros s.
  - now rewrite appendTrace_nil.
  - unfold guardedEvent at 1. simpl.
    destruct (dispose v); rewrite IH, ?emit_appendTrace, ?appendTrace_app; reflexivity.
Qed.

Lemma In_map_to_list (m : gmap string Voice) k v :
  In (k, v) (map_to_list m) <-> m !! k = Some v.
Proof. rewrite <- list_elem_of_In. apply elem_of_map_to_list. Qed.

(** The unmount cleanup of the second effect is defensive: whatever the
    voices and the sequence do when disposed, it disposes every voice
    whose [dispose] works, logs the ones that throw, disposes a sequence
    whose [dispose] works, stops the transport, and clears both refs. *)
Lemma unmountCleanup_defensive s :
  let s' := unmountCleanup s in
  synthsRef s' = ∅ /\ sequencerRef s' = None /\
  tstate (transport s') = stopped /\
  (forall k v, synthsRef s !! k = Some v -> dispose v = Callable ->
     In (VoiceDispose k) (trace s')) /\
  (forall k v, synthsRef s !! k = Some v -> dispose v = Throwing ->
     In (ConsoleError "Error disposing synth") (trace s')) /\
  (forall q, sequencerRef s = Some q -> seq_dispose q = Callable ->
     In SequenceDispose (trace s')).
Proof.
  unfold unmountCleanup.
  set (s0 := if bool_decide (tstate (transport s) = stopped) then s else _).
  assert (Hsyn : synthsRef s0 = synthsRef s) by (subst s0; now destruct (bool_decide _)).
  assert (Hseq : sequencerRef s0 = sequencerRef s) by (subst s0; now destruct (bool_decide _)).
  assert (Hst : tstate (transport s0) = stopped).
  { subst s0. destruct (bool_decide _) eqn:E; [now apply bool_decide_eq_true in E | reflexivity]. }
  rewrite disposeEachGuarded_events. simpl. rewrite Hsyn, Hseq.
  assert (Hin : forall e k v, synthsRef s !! k = Some v -> In e (guardedEvent (k, v)) ->
            In e (trace s0 ++ concat (List.map guardedEvent (map_to_list (synthsRef s))))).
  { intros e k v Hv He. apply in_or_app. right. apply in_concat.
    exists (guardedEvent (k, v)). split; [| assumption].
    apply in_map. now apply In_map_to_list. }
  split; [reflexivity|]. split; [reflexivity|].
  split; [| split; [| split]].
  - destruct (sequencerRef s) as [q|]; [destruct (seq_dispose q) |]; simpl; exact Hst.
  - intros k v Hv Hd.
    assert (In (VoiceDispose k) (guardedEvent (k, v))).
    { unfold guardedEvent. simpl. rewrite Hd. now left. }
    specialize (Hin _ k v Hv H).
    destruct (sequencerRef s) as [q|]; [destruct (seq_dispose q) |]; simpl;
      first [exact Hin | apply in_or_app; left; exact Hin].
  - intros k v Hv Hd.
    assert (In (ConsoleError "Error disposing synth") (guardedEvent (k, v))).
    { unfold guardedEvent. simpl. rewrite Hd. now left. }
    specialize (Hin _ k v Hv H).
    destruct (sequencerRef s) as [q|]; [destruct (seq_dispose q) |]; simpl;
      first [exact Hin | apply in_or_app; left; exact Hin].
  - intros q Hq Hd. rewrite Hq, Hd. simpl. apply in_or_app. right. now left.
Qed.

(** C9: the cleanup of the synth effect calls [dispose] on every voice
    with no [try] around it.  With a voice whose [dispose] throws, that
    cleanup throws before it has logged anything or cleared the refs, both
    when the component unmounts and when the effect re-runs after a track
    change; the re-run after [removeTrack] meets the very voice whose
    failure [removeTrack] had caught, because the failed [try] skipped the
    [delete]. *)
Theorem dispose_error_escapes_effect_cleanup :
  let faulty := mkVoice Synth 0 Callable Callable Throwing in
  let s := setSynths (<["1" := faulty]> ∅) initialState in
  let s2 := setSynths (<["2" := faulty]> ∅) (addTrack initialState) in
  returned (cleanupSynths s) = false /\
  trace (stateOf (cleanupSynths s)) = [] /\
  synthsRef (stateOf (cleanupSynths s)) !! "1" = Some faulty /\
  returned (unmount s) = false /\
  returned (removeTrack "2" s2) = true /\
  List.map id (tracks (stateOf (removeTrack "2" s2))) = ["1"] /\
  trace (stateOf (removeTrack "2" s2)) =
    [VoiceReleaseAll "2"; ConsoleError "Error disposing synth for track"] /\
  synthsRef (stateOf (removeTrack "2" s2)) !! "2" = Some faulty /\
  returned (tracksEffect (stateOf (removeTrack "2" s2))) = false.
Proof. vm_compute. repeat split. Qed.

(** ** Pause and resume *)

Lemma length_stepIndices n : length (stepIndices n) = Z.to_nat n.
Proof. unfold stepIndices. now rewrite length_map, length_seq. Qed.

Lemma playOrPause_start s :
  isPlaying s = false ->
  (forall q, sequencerRef s = Some q -> seq_dispose q = Callable) ->
  exists s', playOrPause s = Done s' /\
    isPlaying s' = true /\
    transport s' = mkTransport started 0 true 0 (totalSteps s) (tbpm (transport s)) /\
    sequencerRef s' = Some (mkSequence (tracks s) (stepIndices (totalSteps s)) "8n" Callable) /\
    currentStep s' = currentStep s.
Proof.
  intros Hp Hq. unfold playOrPause. rewrite Hp.
  set (s1 := if forallb (hasSynth s) (tracks s) then s else _).
  assert (H1 : tracks s1 = tracks s /\ sequencerRef s1 = sequencerRef s /\
               totalSteps s1 = totalSteps s /\ transport s1 = transport s /\
               currentStep s1 = currentStep s).
  { subst s1. destruct (forallb _ _); [repeat split|].
    repeat split; apply frame_foldl; intros s0 t;
      unfold recreateMissing; now destruct (synthsRef s0 !! id t). }
  destruct H1 as (Ht & Hs & Hn & Htr & Hc).
  unfold createSequence. rewrite Hs, Ht, Hn.
  destruct (sequencerRef s) as [q|] eqn:E.
  - rewrite (Hq q eq_refl). eexists. split; [reflexivity|]. simpl.
    rewrite Htr, Hc. repeat split.
  - eexists. split; [reflexivity|]. simpl. rewrite Htr, Hc. repeat split.
Qed.

(** C2 (amended): pausing stops the ticks and keeps the transport
    position and the sequence.  Starting again builds a new sequence,
    sets the loop to the whole pattern, puts the transport position back
    to 0 and starts the transport, so the next tick is the one of step 0. *)
Theorem pause_then_start_restarts (s : State) (r1 r2 : bool) (time : Z) :
  isPlaying s = true -> contextRunning s = true ->
  (forall q, sequencerRef s = Some q -> seq_dispose q = Callable) ->
  (0 < totalSteps s) ->
  let sp := togglePlayback r1 s in
  let sr := togglePlayback r2 sp in
  (isPlaying sp = false /\ tstate (transport sp) = paused /\
   position (transport sp) = position (transport s) /\
   sequencerRef sp = sequencerRef s /\
   tickStep sp = None /\ clockTick time sp = sp) /\
  (isPlaying sr = true /\ tstate (transport sr) = started /\
   position (transport sr) = 0 /\
   tickStep sr = Some 0 /\ currentStep (clockTick time sr) = 0 /\
   sequencerRef sr =
     Some (mkSequence (tracks s) (stepIndices (totalSteps s)) "8n" Callable) /\
   loop (transport sr) = true /\ loopStart (transport sr) = 0 /\
   loopEnd (transport sr) = totalSteps s).
Proof.
  intros Hplay Hctx Hq Hsteps sp sr.
  assert (Hsp : sp = setIsPlaying false (setTransport (transportPause (transport s)) s)).
  { unfold sp, togglePlayback, playOrPause. now rewrite Hctx, Hplay. }
  split.
  - rewrite Hsp. repeat split.
  - assert (Hctx' : contextRunning sp = true) by now rewrite Hsp.
    assert (Hpl : isPlaying sp = false) by now rewrite Hsp.
    assert (Hq' : forall q, sequencerRef sp = Some q -> seq_dispose q = Callable).
    { rewrite Hsp. exact Hq. }
    destruct (playOrPause_start sp Hpl Hq') as (s' & Hrun & Hp' & Htr & Hseq & _).
    assert (Hsr : sr = s').
    { unfold sr, togglePlayback. now rewrite Hctx', Hrun. }
    assert (Hts : totalSteps sp = totalSteps s) by now rewrite Hsp.
    assert (Hix : tickStep sr = Some 0).
    { rewrite Hsr. unfold tickStep. rewrite Htr, Hseq. simpl.
      destruct (stepIndices (totalSteps sp)) eqn:E.
      - apply (f_equal (@length Z)) in E. rewrite length_stepIndices in E.
        simpl in E. lia.
      - reflexivity. }
    assert (Htk : tracks sp = tracks s) by now rewrite Hsp.
    rewrite Hsr in *. rewrite Htr, Hseq, Hts, Htk. repeat split; try assumption.
    unfold clockTick. rewrite Htr, Hix, Hseq. simpl.
    now rewrite sequenceCallback_events.
Qed.

Lemma pause_then_start_restarts_witness :
  let s := session [TogglePlayback true; ClockTick 0; ClockTick 1; ClockTick 2]
             initialState in
  position (transport s) = 3 /\
  position (transport (togglePlayback true s)) = 3 /\
  position (transport (togglePlayback true (togglePlayback true s))) = 0 /\
  tickStep (togglePlayback true (togglePlayback true s)) = Some 0.
Proof.
  intros s.
  assert (Hplay : isPlaying s = true) by reflexivity.
  assert (Hctx : contextRunning s = true) by reflexivity.
  assert (Hq : forall q, sequencerRef s = Some q -> seq_dispose q = Callable).
  { intros q Hs. vm_compute in Hs. injection Hs as <-. reflexivity. }
  assert (Hn : 0 < totalSteps s) by reflexivity.
  destruct (pause_then_start_restarts s true true 0 Hplay Hctx Hq Hn)
    as [(_ & _ & Hpos & _) (_ & _ & Hzero & Hix & _)].
  split; [reflexivity|]. split; [rewrite Hpos; reflexivity|]. split; assumption.
Defined.

(** The claim as stated fails: after three ticks the transport stands at
    position 3; pausing keeps 3, and starting again puts it at 0, so the
    next tick plays step 0 and not step 3. *)
Lemma resume_resets_position :
  let s := session [TogglePlayback true; ClockTick 0; ClockTick 1; ClockTick 2]
             initialState in
  let sp := togglePlayback true s in
  let sr := togglePlayback true sp in
  isPlaying s = true /\ tickStep s = Some 3 /\
  isPlaying sp = false /\ position (transport sp) = 3 /\
  isPlaying sr = true /\ position (transport sr) = 0 /\
  tickStep sr = Some 0 /\
  position (transport sr) <> position (transport sp).
Proof. vm_compute. repeat split. discriminate. Qed.

(** ** MIDI numbers and note names *)

Lemma takeRun_prefix cls cs :
  exists post, cs = (takeRun cls cs ++ post)%list /\
               Forall (fun c => cls c = true) (takeRun cls cs).
Proof.
  induction cs as [|c cs (post & IH & Hall)]; simpl.
  - exists []. split; [reflexivity | constructor].
  - destruct (cls c) eqn:E.
    + exists post. simpl. split; [now f_equal | now constructor].
    + exists (c :: cs). split; [reflexivity | constructor].
Qed.

Lemma octaveGroup_some acc n cs r :
  octaveGroup acc n cs = Some r ->
  exists post, cs = (m_octave r ++ post)%list /\ m_octave r <> [] /\
    Forall (fun c => isOctaveChar c = true) (m_octave r) /\
    m_note r = n /\ m_accidental r = acc.
Proof.
  unfold octaveGroup. destruct (takeRun_prefix isOctaveChar cs) as (post & Hcs & Hall).
  destruct (takeRun isOctaveChar cs) as [|o os] eqn:E; [discriminate|].
  intros [= <-]. simpl. exists post. split; [exact Hcs|].
  split; [discriminate|]. split; [exact Hall|]. split; reflexivity.
Qed.

Lemma matchHere_some cs r :
  matchHere cs = Some r ->
  exists acc post, cs = (m_note r :: acc ++ m_octave r ++ post)%list /\
    isNoteLetter (m_note r) = true /\
    (acc = [] \/ exists a, acc = [a] /\ isAccidental a = true) /\
    m_octave r <> [] /\ Forall (fun c => isOctaveChar c = true) (m_octave r).
Proof.
  destruct cs as [|n rest]; simpl; [discriminate|].
  destruct (isNoteLetter n) eqn:Hn; [| discriminate].
  assert (Hplain : octaveGroup None n rest = Some r ->
    exists acc post, n :: rest = (m_note r :: acc ++ m_octave r ++ post)%list /\
      isNoteLetter (m_note r) = true /\
      (acc = [] \/ exists a, acc = [a] /\ isAccidental a = true) /\
      m_octave r <> [] /\ Forall (fun c => isOctaveChar c = true) (m_octave r)).
  { intros H. apply octaveGroup_some in H as (post & -> & Hne & Hall & <- & _).
    exists [], post. repeat split; auto. }
  destruct rest as [|a rest']; [exact Hplain|].
  destruct (isAccidental a) eqn:Ha; [| exact Hplain].
  destruct (octaveGroup (Some a) n rest') as [r'|] eqn:Hg; [| exact Hplain].
  intros [= <-]. apply octaveGroup_some in Hg as (post & -> & Hne & Hall & <- & _).
  exists [a], post. repeat split; eauto.
Qed.

Lemma matchPitch_some cs r :
  matchPitch cs = Some r ->
  exists pre acc post, cs = (pre ++ m_note r :: acc ++ m_octave r ++ post)%list /\
    isNoteLetter (m_note r) = true /\
    (acc = [] \/ exists a, acc = [a] /\ isAccidental a = true) /\
    m_octave r <> [] /\ Forall (fun c => isOctaveChar c = true) (m_octave r).
Proof.
  induction cs as [|c cs IH]; [discriminate|].
  cbn [matchPitch]. destruct (matchHere (c :: cs)) as [r'|] eqn:Hh.
  - intros [= <-]. apply matchHere_some in Hh as (acc & post & H).
    exists [], acc, post. exact H.
  - intros H. apply IH in H as (pre & acc & post & -> & H).
    exists (c :: pre), acc, post. split; [reflexivity | exact H].
Qed.

Lemma octaveChar_not_accidental c : isOctaveChar c = true -> isAccidental c = false.
Proof.
  unfold isOctaveChar, isAccidental, isDigit. intros H.
  apply orb_true_iff in H. apply orb_false_iff. rewrite !Z.eqb_neq.
  destruct H as [H | H]; [apply Z.eqb_eq in H; lia|].
  apply andb_true_iff in H as [H1 H2]. apply Z.leb_le in H1, H2. lia.
Qed.

Lemma octaveGroup_run acc n o os post :
  isOctaveChar o = true -> octaveGroup acc n ((o :: os) ++ post) <> None.
Proof. intros H. unfold octaveGroup. simpl. rewrite H. discriminate. Qed.

Lemma matchHere_complete n acc oct post :
  isNoteLetter n = true ->
  (acc = [] \/ exists a, acc = [a] /\ isAccidental a = true) ->
  oct <> [] -> Forall (fun c => isOctaveChar c = true) oct ->
  matchHere (n :: acc ++ oct ++ post) <> None.
Proof.
  intros Hn Hacc Hne Hall. destruct oct as [|o os]; [congruence|].
  apply Forall_inv in Hall. cbn [matchHere]. rewrite Hn.
  destruct Hacc as [-> | (a & -> & Ha)].
  - cbn [app]. rewrite (octaveChar_not_accidental o Hall).
    now apply (octaveGroup_run None n o os post).
  - change (([a] ++ (o :: os) ++ post)%list) with (a :: ((o :: os) ++ post))%list.
    cbv iota. rewrite Ha.
    pose proof (octaveGroup_run (Some a) n o os post Hall) as H.
    destruct (octaveGroup (Some a) n ((o :: os) ++ post)); [discriminate | congruence].
Qed.

Lemma matchPitch_complete pre n acc oct post :
  isNoteLetter n = true ->
  (acc = [] \/ exists a, acc = [a] /\ isAccidental a = true) ->
  oct <> [] -> Forall (fun c => isOctaveChar c = true) oct ->
  matchPitch (pre ++ n :: acc ++ oct ++ post) <> None.
Proof.
  intros Hn Hacc Hne Hall. induction pre as [|c pre IH].
  - cbn [app matchPitch].
    pose proof (matchHere_complete n acc oct post Hn Hacc Hne Hall) as H.
    destruct (matchHere _); [discriminate | congruence].
  - change ((c :: pre) ++ n :: acc ++ oct ++ post)%list
      with (c :: (pre ++ n :: acc ++ oct ++ post))%list.
    cbn [matchPitch]. destruct (matchHere _); [discriminate | exact IH].
Qed.

(** The matcher decides the language of the pattern. *)
Lemma matchPitch_decides noteName :
  matchesPitchPattern noteName <-> matchPitch (list_ascii_of_string noteName) <> None.
Proof.
  unfold matchesPitchPattern. split.
  - intros (pre & n & acc & oct & post & -> & Hn & Hacc & Hne & Hall).
    now apply matchPitch_complete.
  - intros H. destruct (matchPitch _) as [r|] eqn:E; [| congruence].
    apply matchPitch_some in E as (pre & acc & post & Hcs & Hrest).
    exists pre, (m_note r), acc, (m_octave r), post. split; assumption.
Qed.

Lemma roundTrips_below_128 : forallb roundTrips (seq 0 128) = true.
Proof. vm_compute. reflexivity. Qed.

(** C10: for a MIDI number from 0 to 127, the name that [midiToNoteName]
    builds is read back by [noteNameToMidi] as the same number; and a
    string in which the pitch pattern matches nowhere is read as 60. *)
Theorem midi_name_roundtrip :
  (forall m : Z, 0 <= m <= 127 -> noteNameToMidi (midiToNoteName m) = Int m) /\
  (forall noteName : string,
     ~ matchesPitchPattern noteName -> noteNameToMidi noteName = Int 60).
Proof.
  split.
  - intros m Hm.
    pose proof (proj1 (forallb_forall roundTrips (seq 0 128)) roundTrips_below_128
                  (Z.to_nat m)) as H.
    unfold roundTrips in H. rewrite Z2Nat.id in H by lia.
    apply bool_decide_eq_true in H; [exact H|].
    apply in_seq. lia.
  - intros noteName Hno. unfold noteNameToMidi.
    destruct (matchPitch (list_ascii_of_string noteName)) eqn:E; [| reflexivity].
    exfalso. apply Hno. apply matchPitch_decides. congruence.
Qed.

Lemma midi_name_roundtrip_witness :
  noteNameToMidi (midiToNoteName 69) = Int 69 /\ midiToNoteName 69 = "A4" /\
  noteNameToMidi "do re mi" = Int 60.
Proof.
  destruct midi_name_roundtrip as [Hround Hdefault].
  split; [apply Hround; lia|]. split; [reflexivity|].
  apply Hdefault. intros H. apply matchPitch_decides in H. apply H. reflexivity.
Defined.

(** * Further properties of the component *)

(** ** removeTrack on a well-formed track list *)

(** X1: with pairwise distinct track ids and more than one track,
    [removeTrack i] for a live id returns, keeps the other tracks in their
    order, lowers the count by one, and leaves a selection that names a
    remaining track; a selection other than [i] is kept. *)
Theorem removeTrack_removes_one (i : string) (s : State) :
  List.NoDup (List.map id (tracks s)) -> In i (List.map id (tracks s)) ->
  (1 < length (tracks s))%nat -> In (currentTrackId s) (List.map id (tracks s)) ->
  exists s', removeTrack i s = Done s' /\
    tracks s' = List.filter (otherThan i) (tracks s) /\
    S (length (tracks s')) = length (tracks s) /\
    ~ In i (List.map id (tracks s')) /\
    In (currentTrackId s') (List.map id (tracks s')) /\
    (currentTrackId s <> i -> currentTrackId s' = currentTrackId s).
Proof.
  intros Hnd Hin Hlen Hcur.
  destruct (removeTrack_distinct_ids i s Hnd Hin Hlen Hcur)
    as (s' & Hrun & Ht & Hl & Hgone & Hsel).
  exists s'. repeat split; try assumption.
  intros Hne. apply String.eqb_neq in Hne. revert Hrun. unfold removeTrack.
  destruct (length (tracks s) <=? 1)%nat; [intros [= <-]; reflexivity|].
  rewrite Hne. intros [= <-]. simpl. apply currentTrackId_releaseVoice.
Qed.

Lemma removeTrack_removes_one_witness :
  exists s', removeTrack "1" (addTrack initialState) = Done s' /\
    List.map id (tracks s') = ["2"] /\ currentTrackId s' = "2".
Proof.
  destruct (removeTrack_removes_one "1" (addTrack initialState))
    as (s' & Hrun & Ht & _ & _ & _ & Hkeep).
  - simpl. repeat constructor; simpl; intuition discriminate.
  - simpl. now left.
  - simpl. lia.
  - simpl. right. now left.
  - exists s'. split; [exact Hrun|]. split; [now rewrite Ht|].
    rewrite Hkeep; [reflexivity | discriminate].
Defined.

(** X2: the registry is an object literal, so the statement is for an id
    that does not name a member of [Object.prototype] (the numerals that
    [addTrack] issues are such ids).  When more than one track exists and
    the voice registered under [i] has working [releaseAll] and
    [dispose], [removeTrack i] calls them in that order and deletes the
    entry, leaving every other entry alone; with no voice under [i] the
    registry and the trace are not touched. *)
Theorem removeTrack_releases_voice (i : string) (s : State) :
  ~ In i objectPrototypeKeys ->
  (1 < length (tracks s))%nat ->
  let s' := stateOf (removeTrack i s) in
  (forall v, synthsRef s !! i = Some v ->
     releaseAll v = Callable -> dispose v = Callable ->
     synthsRef s' = delete i (synthsRef s) /\
     trace s' = (trace s ++ [VoiceReleaseAll i; VoiceDispose i])%list) /\
  (synthsRef s !! i = None -> synthsRef s' = synthsRef s /\ trace s' = trace s).
Proof.
  intros _ Hlen s'. subst s'. unfold removeTrack.
  destruct (length (tracks s) <=? 1)%nat eqn:E; [apply Nat.leb_le in E; lia|].
  assert (Hshape : forall s1 : State,
    let o := if String.eqb (currentTrackId s) i
             then match List.filter (otherThan i) (tracks s) with
                  | t :: _ => Done (setCurrentTrackId (id t)
                                (setTracks (List.filter (otherThan i) (tracks s)) s1))
                  | [] => Thrown "TypeError: remainingTracks[0] is undefined"
                            (setTracks (List.filter (otherThan i) (tracks s)) s1)
                  end
             else Done (setTracks (List.filter (otherThan i) (tracks s)) s1) in
    synthsRef (stateOf o) = synthsRef s1 /\ trace (stateOf o) = trace s1).
  { intros s1. simpl. destruct (String.eqb (currentTrackId s) i);
      [destruct (List.filter (otherThan i) (tracks s)) |]; split; reflexivity. }
  destruct (Hshape (releaseVoice i s)) as [Hs Ht]. simpl in Hs, Ht.
  rewrite Hs, Ht. unfold releaseVoice. split.
  - intros v Hv Hr Hd. rewrite Hv, Hr, Hd. simpl. rewrite <- app_assoc. split; reflexivity.
  - intros Hv. rewrite Hv. split; reflexivity.
Qed.

Lemma removeTrack_releases_voice_witness :
  let s := setSynths (<["1" := newPolySynth Synth]> (<["2" := newPolySynth AMSynth]> ∅))
             (addTrack initialState) in
  synthsRef (stateOf (removeTrack "1" s)) !! "1" = None /\
  synthsRef (stateOf (removeTrack "1" s)) !! "2" = Some (newPolySynth AMSynth) /\
  trace (stateOf (removeTrack "1" s)) = [VoiceReleaseAll "1"; VoiceDispose "1"].
Proof.
  intros s.
  assert (Hlen : (1 < length (tracks s))%nat) by (simpl; lia).
  assert (Hkey : ~ In "1" objectPrototypeKeys).
  { intros H. simpl in H.
    repeat (destruct H as [H | H]; [discriminate H|]). exact H. }
  destruct (removeTrack_releases_voice "1" s Hkey Hlen) as [H _].
  destruct (H (newPolySynth Synth) eq_refl eq_refl eq_refl) as [Hs Ht].
  rewrite Hs, Ht. repeat split.
Defined.

(** X3: when [releaseAll] or [dispose] of the voice under [i] fails,
    [removeTrack i] still takes the track out of the list and logs the
    error, but the registry keeps the entry: the [delete] is skipped. *)
Theorem removeTrack_keeps_failed_voice (i : string) (s : State) (v : Voice) :
  (1 < length (tracks s))%nat -> synthsRef s !! i = Some v ->
  releaseAll v <> Callable \/ dispose v <> Callable ->
  let s' := stateOf (removeTrack i s) in
  tracks s' = List.filter (otherThan i) (tracks s) /\
  synthsRef s' = synthsRef s /\
  In (ConsoleError "Error disposing synth for track") (trace s') /\
  ~ In (VoiceDispose i) (skipn (length (trace s)) (trace s')).
Proof.
  intros Hlen Hv Hbad s'.
  destruct (removeTrack_survives_voice_error i s v Hlen Hv Hbad) as (Ht & Hlog & _).
  split; [exact Ht|]. split; [| split; [exact Hlog|]].
  - subst s'. unfold removeTrack.
    destruct (length (tracks s) <=? 1)%nat; [reflexivity|].
    assert (Hr : synthsRef (releaseVoice i s) = synthsRef s).
    { unfold releaseVoice. rewrite Hv.
      destruct (releaseAll v) eqn:Hr; [destruct (dispose v) eqn:Hd |..];
        try reflexivity. destruct Hbad; congruence. }
    destruct (String.eqb (currentTrackId s) i);
      [destruct (List.filter (otherThan i) (tracks s)) |]; exact Hr.
  - subst s'. unfold removeTrack.
    destruct (length (tracks s) <=? 1)%nat eqn:E; [apply Nat.leb_le in E; lia|].
    assert (Hr : ~ In (VoiceDispose i)
                   (skipn (length (trace s)) (trace (releaseVoice i s)))).
    { unfold releaseVoice. rewrite Hv.
      destruct (releaseAll v) eqn:Hr; [destruct (dispose v) eqn:Hd |..]; simpl;
        rewrite <- ?app_assoc, ?skipn_app, ?skipn_all, ?Nat.sub_diag; simpl;
        try (intros [H | [H | []]]; discriminate H);
        try (intros [H | []]; discriminate H).
      destruct Hbad; congruence. }
    destruct (String.eqb (currentTrackId s) i);
      [destruct (List.filter (otherThan i) (tracks s)) |]; exact Hr.
Qed.

Lemma removeTrack_keeps_failed_voice_witness :
  let faulty := mkVoice Synth 0 Callable Callable Throwing in
  let s := setSynths (<["2" := faulty]> ∅) (addTrack initialState) in
  List.map id (tracks (stateOf (removeTrack "2" s))) = ["1"] /\
  synthsRef (stateOf (removeTrack "2" s)) !! "2" = Some faulty.
Proof.
  intros faulty s.
  assert (Hlen : (1 < length (tracks s))%nat) by (simpl; lia).
  assert (Hv : synthsRef s !! "2" = Some faulty) by reflexivity.
  destruct (removeTrack_keeps_failed_voice "2" s faulty Hlen Hv) as (Ht & Hs & _).
  - right. discriminate.
  - rewrite Ht, Hs. split; reflexivity.
Defined.

(** X4: the unmount cleanup of the second effect never throws and is
    exhaustive: it stops the transport, calls [dispose] on every voice
    that has one, logs each one that throws and goes on, disposes the
    sequence when it can, and leaves both refs empty. *)
Theorem unmountCleanup_exhaustive (s : State) :
  let s' := unmountCleanup s in
  synthsRef s' = ∅ /\ sequencerRef s' = None /\
  tstate (transport s') = stopped /\
  (forall k v, synthsRef s !! k = Some v -> dispose v = Callable ->
     In (VoiceDispose k) (trace s')) /\
  (forall k v, synthsRef s !! k = Some v -> dispose v = Throwing ->
     In (ConsoleError "Error disposing synth") (trace s')) /\
  (forall q, sequencerRef s = Some q -> seq_dispose q = Callable ->
     In SequenceDispose (trace s')).
Proof. exact (unmountCleanup_defensive s). Qed.

Lemma unmountCleanup_exhaustive_witness :
  let s := setSynths (<["1" := newPolySynth Synth]>
                       (<["2" := mkVoice AMSynth 0 Callable Callable Throwing]> ∅))
             (togglePlayback true initialState) in
  In (VoiceDispose "1") (trace (unmountCleanup s)) /\
  In (ConsoleError "Error disposing synth") (trace (unmountCleanup s)) /\
  In SequenceDispose (trace (unmountCleanup s)) /\
  synthsRef (unmountCleanup s) = ∅.
Proof.
  intros s. destruct (unmountCleanup_exhaustive s) as (He & _ & _ & H1 & H2 & H3).
  split; [apply (H1 "1" (newPolySynth Synth)); reflexivity|].
  split; [apply (H2 "2" (mkVoice AMSynth 0 Callable Callable Throwing)); reflexivity|].
  split; [| exact He].
  apply (H3 (mkSequence (tracks initialState) (stepIndices 16) "8n" Callable)); reflexivity.
Defined.

(** ** Editing tracks and notes *)

Lemma withMuteToggled_twice i t : withMuteToggled i (withMuteToggled i t) = t.
Proof.
  unfold withMuteToggled. destruct (String.eqb (id t) i) eqn:E; simpl; rewrite E.
  - simpl. rewrite negb_involutive. now destruct t.
  - reflexivity.
Qed.

(** X5: [toggleTrackMute] is its own inverse: two calls with the same id
    give back the state they started from. *)
Theorem toggleTrackMute_twice (i : string) (s : State) :
  toggleTrackMute i (toggleTrackMute i s) = s.
Proof.
  unfold toggleTrackMute, setTracks. simpl. rewrite List.map_map.
  rewrite (List.map_ext _ (fun t => t) (withMuteToggled_twice i)), List.map_id.
  now destruct s.
Qed.

Lemma map_withNote_frame i n ts :
  List.map id (List.map (withNote i n) ts) = List.map id ts /\
  forall k u, nth_error ts k = Some u ->
    exists u', nth_error (List.map (withNote i n) ts) k = Some u' /\
      id u' = id u /\ instrument u' = instrument u /\
      volume u' = volume u /\ muted u' = muted u /\ (id u <> i -> u' = u).
Proof.
  split.
  - rewrite List.map_map. apply List.map_ext. apply id_withNote.
  - intros k u Hk. exists (withNote i n u). rewrite nth_error_map, Hk.
    split; [reflexivity|]. unfold withNote.
    destruct (String.eqb (id u) i) eqn:E; simpl; repeat split.
    apply String.eqb_eq in E. congruence.
Qed.

Lemma map_withoutNote_frame i st p ts :
  List.map id (List.map (withoutNote i st p) ts) = List.map id ts /\
  forall k u, nth_error ts k = Some u ->
    exists u', nth_error (List.map (withoutNote i st p) ts) k = Some u' /\
      id u' = id u /\ instrument u' = instrument u /\
      volume u' = volume u /\ muted u' = muted u /\ (id u <> i -> u' = u).
Proof.
  split.
  - rewrite List.map_map. apply List.map_ext. apply id_withoutNote.
  - intros k u Hk. exists (withoutNote i st p u). rewrite nth_error_map, Hk.
    split; [reflexivity|]. unfold withoutNote.
    destruct (String.eqb (id u) i) eqn:E; simpl; repeat split.
    apply String.eqb_eq in E. congruence.
Qed.

Lemma ids_addNote t st p d s :
  List.map id (tracks (addNote t st p d s)) = List.map id (tracks s).
Proof.
  unfold addNote. destruct (List.find (hasId t) (tracks s)); [| reflexivity].
  destruct (existsb _ _); simpl.
  - apply (proj1 (map_withoutNote_frame t st p (tracks s))).
  - apply (proj1 (map_withNote_frame t _ (tracks s))).
Qed.

(** X6: [addNote] edits notes only.  The tracks keep their number, order,
    ids, instruments, volumes and mute flags, a track with another id is
    not changed at all, and the selection, the voices, the sequence and
    the trace stay as they are; for an id that no track carries the call
    changes nothing. *)
Theorem addNote_frame (t : string) (st : Z) (p : string)
    (d : option NoteDuration) (s : State) :
  let s' := addNote t st p d s in
  List.map id (tracks s') = List.map id (tracks s) /\
  (forall k u, nth_error (tracks s) k = Some u ->
     exists u', nth_error (tracks s') k = Some u' /\
       id u' = id u /\ instrument u' = instrument u /\
       volume u' = volume u /\ muted u' = muted u /\ (id u <> t -> u' = u)) /\
  currentTrackId s' = currentTrackId s /\ synthsRef s' = synthsRef s /\
  sequencerRef s' = sequencerRef s /\ trace s' = trace s /\
  ((forall u, In u (tracks s) -> id u <> t) -> s' = s).
Proof.
  intros s'. subst s'. unfold addNote.
  destruct (List.find (hasId t) (tracks s)) as [t0|] eqn:Hf.
  - assert (Hno : ~ (forall u, In u (tracks s) -> id u <> t)).
    { intros H. apply find_some in Hf as [Hin Hid]. apply hasId_spec in Hid.
      exact (H t0 Hin Hid). }
    destruct (existsb (sameKey st p) (notes t0)); simpl.
    + destruct (map_withoutNote_frame t st p (tracks s)) as [H1 H2].
      repeat split; try assumption. intros H. contradiction.
    + destruct (map_withNote_frame t
        (mkNote st p (Some (default (activeDuration s) d))) (tracks s)) as [H1 H2].
      repeat split; try assumption. intros H. contradiction.
  - repeat split. intros k u Hk. exists u. repeat split. exact Hk.
Qed.

Lemma addNote_frame_witness :
  addNote "7" 0 "C4" (Some quarter) initialState = initialState.
Proof.
  apply (addNote_frame "7" 0 "C4" (Some quarter) initialState).
  intros u [<- | []]. discriminate.
Defined.

Lemma trackNotes_In i s ns :
  trackNotes i s = Some ns -> exists t, In t (tracks s) /\ notes t = ns.
Proof.
  unfold trackNotes. destruct (List.find (hasId i) (tracks s)) as [t|] eqn:Hf;
    [| discriminate].
  intros [= <-]. apply find_some in Hf as [Hin _]. eauto.
Qed.

(** X7: in a reachable state a call of [addNote] changes the number of
    notes of the edited track by exactly one: one less when a note sat at
    (step, pitch), one more when none did. *)
Theorem addNote_changes_count_by_one (t : string) (st : Z) (p : string)
    (d : option NoteDuration) (s : State) (ns : list Note) :
  reachable s -> trackNotes t s = Some ns ->
  exists ns', trackNotes t (addNote t st p d s) = Some ns' /\
    if existsb (sameKey st p) ns
    then S (length ns') = length ns
    else length ns' = S (length ns).
Proof.
  intros Hr Hns. rewrite (trackNotes_addNote t st p d s ns Hns).
  eexists. split; [reflexivity|].
  destruct (existsb (sameKey st p) ns) eqn:E.
  - apply existsb_exists in E as (n & Hn & Hk).
    destruct (trackNotes_In t s ns Hns) as (t0 & Ht0 & <-).
    destruct (tracksInv_reachable s Hr) as [Hall _].
    rewrite List.Forall_forall in Hall. specialize (Hall t0 Ht0).
    pose proof (filter_notSameKey_single st p (notes t0) n Hall Hn Hk) as Hperm.
    apply Permutation_length in Hperm. rewrite length_app in Hperm. simpl in Hperm. lia.
  - rewrite length_app. simpl. lia.
Qed.

Lemma addNote_changes_count_by_one_witness :
  let s := session [AddNote "1" 0 "C4" (Some quarter); AddNote "1" 4 "E4" None] initialState in
  exists ns', trackNotes "1" (addNote "1" 0 "C4" (Some whole) s) = Some ns' /\
              S (length ns') = 2%nat.
Proof.
  intros s.
  assert (Hr : reachable s) by apply reachable_session, reach_init.
  exact (addNote_changes_count_by_one "1" 0 "C4" (Some whole) s
           [mkNote 0 "C4" (Some quarter); mkNote 4 "E4" (Some quarter)] Hr eq_refl).
Defined.

(** ** Track ids *)

Lemma natToString_inj n m : natToString n = natToString m -> n = m.
Proof.
  unfold natToString. intros H. apply DecimalNat.Unsigned.to_uint_inj.
  apply (f_equal NilEmpty.uint_of_string) in H.
  rewrite !NilEmpty.usu in H. now injection H.
Qed.

Lemma ids_map_same (f : Track -> Track) ts :
  (forall t, id (f t) = id t) -> List.map id (List.map f ts) = List.map id ts.
Proof. intros H. rewrite List.map_map. now apply List.map_ext. Qed.

Lemma ids_run_without_removal a s :
  isRemoval a = false ->
  List.map id (tracks s) = List.map natToString (seq 1 (length (tracks s))) ->
  List.map id (tracks (stateOf (run a s))) =
  List.map natToString (seq 1 (length (tracks (stateOf (run a s))))).
Proof.
  intros Ha Hinv.
  assert (Hmap : forall f : Track -> Track, (forall t, id (f t) = id t) ->
            List.map id (List.map f (tracks s)) =
            List.map natToString (seq 1 (length (List.map f (tracks s))))).
  { intros f Hf. now rewrite ids_map_same, length_map. }
  destruct a; try discriminate Ha; cbn [run stateOf].
  - unfold addTrack. simpl. rewrite List.map_app, length_app. simpl.
    rewrite seq_app, List.map_app, <- Hinv. simpl. now rewrite Nat.add_comm.
  - simpl. apply Hmap. guarded_update withInstrument.
  - rewrite tracks_updateTrackVolume. apply Hmap. guarded_update withVolume.
  - apply Hmap. guarded_update withMuteToggled.
  - pose proof (ids_addNote trackId st p d s) as H. rewrite H.
    apply (f_equal (@length string)) in H. rewrite !length_map in H. now rewrite H.
  - apply Hmap. guarded_update withNoNotes.
  - exact Hinv.
  - now rewrite tracks_togglePlayback.
  - now rewrite tracks_resetPlayback.
  - exact Hinv.
  - now rewrite tracks_clockTick.
  - now rewrite tracks_tracksEffect.
  - exact Hinv.
Qed.

(** X8: as long as no track is removed the ids stay fresh: after any
    session without [removeTrack] the k-th track carries the decimal
    numeral of k, so the ids are pairwise distinct. *)
Theorem ids_distinct_without_removal (acts : list Action) :
  forallb (fun a => negb (isRemoval a)) acts = true ->
  let s := session acts initialState in
  List.map id (tracks s) = List.map natToString (seq 1 (length (tracks s))) /\
  List.NoDup (List.map id (tracks s)).
Proof.
  intros Hacts s.
  assert (H : List.map id (tracks s) = List.map natToString (seq 1 (length (tracks s)))).
  { subst s. unfold session.
    assert (Hinit : List.map id (tracks initialState) =
                    List.map natToString (seq 1 (length (tracks initialState))))
      by reflexivity.
    revert Hacts Hinit. generalize initialState.
    induction acts as [|a acts IH]; intros s0 Hacts Hinit; [exact Hinit|].
    simpl in Hacts. apply andb_true_iff in Hacts as [Ha Hacts].
    apply negb_true_iff in Ha. simpl. apply IH; [assumption|].
    now apply ids_run_without_removal. }
  split; [exact H|]. rewrite H.
  apply Finite.Injective_map_NoDup; [| apply seq_NoDup].
  intros n m. apply natToString_inj.
Qed.

Lemma ids_distinct_without_removal_witness :
  List.map id (tracks (session [AddTrack; AddNote "2" 0 "C4" None; AddTrack] initialState))
  = ["1"; "2"; "3"].
Proof.
  destruct (ids_distinct_without_removal [AddTrack; AddNote "2" 0 "C4" None; AddTrack])
    as [H _]; [reflexivity|].
  rewrite H. reflexivity.
Defined.

(** ** Instrument and volume changes *)




(** X10: for an id that does not name a member of [Object.prototype]
    (the numerals that [addTrack] issues are such ids),
    [updateTrackVolume i v] sets the volume of every track with id [i]
    and nothing else in the track list; a voice registered under [i] gets
    the level [v] and keeps its family and methods, a missing voice is
    not created, and the other voices and the trace are not touched. *)
Theorem updateTrackVolume_syncs_voice (i : string) (v : Z) (s : State) :
  ~ In i objectPrototypeKeys ->
  let s' := updateTrackVolume i v s in
  (forall u, In u (tracks s') -> id u = i -> volume u = v) /\
  (forall u, In u (tracks s') -> id u <> i -> In u (tracks s)) /\
  List.map id (tracks s') = List.map id (tracks s) /\
  List.map notes (tracks s') = List.map notes (tracks s) /\
  List.map instrument (tracks s') = List.map instrument (tracks s) /\
  List.map muted (tracks s') = List.map muted (tracks s) /\
  synthsRef s' !! i = setLevel v <$> synthsRef s !! i /\
  (forall k, k <> i -> synthsRef s' !! k = synthsRef s !! k) /\
  trace s' = trace s.
Proof.
  intros _ s'. subst s'.
  assert (Hfield : forall {B} (proj : Track -> B),
            (forall t, proj (withVolume i v t) = proj t) ->
            List.map proj (List.map (withVolume i v) (tracks s)) =
            List.map proj (tracks s)).
  { intros B proj H. rewrite List.map_map. now apply List.map_ext. }
  rewrite tracks_updateTrackVolume.
  split; [| split; [| split; [| split; [| split; [| split]]]]].
  - intros u Hu Hid. apply in_map_iff in Hu as (u0 & <- & _). revert Hid.
    unfold withVolume. destruct (String.eqb (id u0) i) eqn:E; simpl; [reflexivity|].
    apply String.eqb_neq in E. congruence.
  - intros u Hu Hid. apply in_map_iff in Hu as (u0 & <- & Hu0). revert Hid.
    unfold withVolume. destruct (String.eqb (id u0) i) eqn:E; simpl; [| now intros _].
    apply String.eqb_eq in E. congruence.
  - apply Hfield. guarded_update withVolume.
  - apply Hfield. guarded_update withVolume.
  - apply Hfield. guarded_update withVolume.
  - apply Hfield. guarded_update withVolume.
  - unfold updateTrackVolume. simpl.
    destruct (synthsRef s !! i) as [x|] eqn:E; simpl.
    + rewrite lookup_insert_eq. repeat split. intros k Hk.
      now rewrite lookup_insert_ne by congruence.
    + rewrite E. repeat split.
Qed.

Lemma updateTrackVolume_syncs_voice_witness :
  let s := setSynths (<["1" := newPolySynth FMSynth]> ∅) initialState in
  synthsRef (updateTrackVolume "1" (-12) s) !! "1" =
    Some (mkVoice FMSynth (-12) Callable Callable Callable) /\
  synthsRef (updateTrackVolume "2" (-12) s) !! "2" = None.
Proof.
  intros s.
  assert (Hkey : forall c, ~ In (String c EmptyString) objectPrototypeKeys).
  { intros c H. simpl in H.
    repeat (destruct H as [H | H]; [discriminate H|]). exact H. }
  split.
  - destruct (updateTrackVolume_syncs_voice "1" (-12) s (Hkey "1"%char))
      as (_ & _ & _ & _ & _ & _ & H & _).
    rewrite H. reflexivity.
  - destruct (updateTrackVolume_syncs_voice "2" (-12) s (Hkey "2"%char))
      as (_ & _ & _ & _ & _ & _ & H & _).
    rewrite H. reflexivity.
Defined.

(** ** The synth effect *)

Lemma createMissing_other s t k :
  k <> id t -> synthsRef (createMissing s t) !! k = synthsRef s !! k.
Proof.
  intros Hne. unfold createMissing. destruct (synthsRef s !! id t); [reflexivity|].
  simpl. now rewrite lookup_insert_ne by congruence.
Qed.

Lemma createMissing_existing s t k v :
  synthsRef s !! k = Some v -> synthsRef (createMissing s t) !! k = Some v.
Proof.
  intros Hv. destruct (decide (k = id t)) as [->|Hne].
  - unfold createMissing. now rewrite Hv.
  - now rewrite createMissing_other.
Qed.

Lemma foldl_createMissing_existing ts s k v :
  synthsRef s !! k = Some v -> synthsRef (foldl createMissing s ts) !! k = Some v.
Proof.
  revert s. induction ts as [|a ts IH]; simpl; intros s H; [assumption|].
  apply IH. now apply createMissing_existing.
Qed.

Lemma foldl_createMissing_absent ts s k :
  (forall t, In t ts -> id t <> k) ->
  synthsRef (foldl createMissing s ts) !! k = synthsRef s !! k.
Proof.
  revert s. induction ts as [|a ts IH]; simpl; intros s H; [reflexivity|].
  rewrite IH by auto. apply createMissing_other. intros ->. now apply (H a); [left|].
Qed.

Lemma foldl_createMissing_fresh ts s t :
  List.NoDup (List.map id ts) -> In t ts -> synthsRef s !! id t = None ->
  synthsRef (foldl createMissing s ts) !! id t = Some (freshVoice t).
Proof.
  revert s. induction ts as [|a ts IH]; simpl; intros s Hnd Hin Hnone; [destruct Hin|].
  apply List.NoDup_cons_iff in Hnd as [Hni Hnd]. destruct Hin as [-> | Hin].
  - apply foldl_createMissing_existing. unfold createMissing. rewrite Hnone. simpl.
    now rewrite lookup_insert_eq.
  - apply IH; [assumption.. |]. rewrite createMissing_other; [assumption|].
    intros E. apply Hni. rewrite <- E. now apply in_map.
Qed.

Lemma syncVolume_lookup_eq s t k :
  synthsRef (syncVolume s t) !! k =
  if decide (k = id t) then setLevel (volume t) <$> synthsRef s !! k
  else synthsRef s !! k.
Proof.
  unfold syncVolume. destruct (decide (k = id t)) as [->|Hne].
  - destruct (synthsRef s !! id t) as [x|] eqn:E; simpl.
    + now rewrite lookup_insert_eq.
    + now rewrite E.
  - destruct (synthsRef s !! id t); simpl; [| reflexivity].
    now rewrite lookup_insert_ne by congruence.
Qed.

Lemma foldl_syncVolume_absent ts s k :
  (forall t, In t ts -> id t <> k) ->
  synthsRef (foldl syncVolume s ts) !! k = synthsRef s !! k.
Proof.
  revert s. induction ts as [|a ts IH]; simpl; intros s H; [reflexivity|].
  rewrite IH by auto. rewrite syncVolume_lookup_eq.
  destruct (decide (k = id a)) as [->|]; [| reflexivity]. now destruct (H a); [left|].
Qed.

Lemma foldl_syncVolume_level ts s t :
  List.NoDup (List.map id ts) -> In t ts ->
  synthsRef (foldl syncVolume s ts) !! id t = setLevel (volume t) <$> synthsRef s !! id t.
Proof.
  revert s. induction ts as [|a ts IH]; simpl; intros s Hnd Hin; [destruct Hin|].
  apply List.NoDup_cons_iff in Hnd as [Hni Hnd]. destruct Hin as [-> | Hin].
  - rewrite foldl_syncVolume_absent.
    + rewrite syncVolume_lookup_eq. now destruct (decide (id t = id t)).
    + intros u Hu E. apply Hni. rewrite <- E. now apply in_map.
  - rewrite IH by assumption. rewrite syncVolume_lookup_eq.
    destruct (decide (id t = id a)) as [E|]; [| reflexivity].
    exfalso. apply Hni. rewrite <- E. now apply in_map.
Qed.

Lemma initSynths_lookup (s : State) :
  List.NoDup (List.map id (tracks s)) ->
  (forall t, In t (tracks s) ->
     synthsRef (initSynths s) !! id t =
     Some (setLevel (volume t)
             (match synthsRef s !! id t with
              | Some v => v
              | None => newPolySynth (initVoiceFamily (instrument t))
              end))) /\
  (forall k, (forall t, In t (tracks s) -> id t <> k) ->
     synthsRef (initSynths s) !! k = synthsRef s !! k).
Proof.
  intros Hnd. unfold initSynths. split.
  - intros t Ht. rewrite foldl_syncVolume_level by assumption.
    destruct (synthsRef s !! id t) as [v|] eqn:E.
    + now rewrite (foldl_createMissing_existing _ _ _ v E).
    + now rewrite foldl_createMissing_fresh.
  - intros k Hk. rewrite foldl_syncVolume_absent by assumption.
    now apply foldl_createMissing_absent.
Qed.

(** X11: after the synth effect has run on a track list with distinct
    ids, every track has a voice at the track's volume: the voice it had
    before, with its family and methods, or else a new one of the registry
    family of the track's instrument.  An entry whose key is no track id
    is left as it is. *)
Theorem initSynths_levels (s : State) :
  List.NoDup (List.map id (tracks s)) ->
  (forall t, In t (tracks s) ->
     synthsRef (initSynths s) !! id t =
     Some (setLevel (volume t)
             (match synthsRef s !! id t with
              | Some v => v
              | None => newPolySynth (initVoiceFamily (instrument t))
              end))) /\
  (forall k, (forall t, In t (tracks s) -> id t <> k) ->
     synthsRef (initSynths s) !! k = synthsRef s !! k).
Proof.
  intros Hnd. unfold initSynths. split.
  - intros t Ht. rewrite foldl_syncVolume_level by assumption.
    destruct (synthsRef s !! id t) as [v|] eqn:E.
    + now rewrite (foldl_createMissing_existing _ _ _ v E).
    + now rewrite foldl_createMissing_fresh.
  - intros k Hk. rewrite foldl_syncVolume_absent by assumption.
    now apply foldl_createMissing_absent.
Qed.

Lemma initSynths_levels_witness :
  let s := updateTrackVolume "1" (-6) (addTrack initialState) in
  synthsRef (initSynths s) !! "1" = Some (mkVoice Synth (-6) Callable Callable Callable) /\
  synthsRef (initSynths s) !! "2" = Some (mkVoice Synth 0 Callable Callable Callable).
Proof.
  intros s.
  assert (Hnd : List.NoDup (List.map id (tracks s))).
  { simpl. repeat constructor; simpl; intuition discriminate. }
  destruct (initSynths_levels s Hnd) as [H _]. split.
  - exact (H (mkTrack "1" "piano" [] (-6) false) (or_introl eq_refl)).
  - exact (H (mkTrack "2" "piano" [] 0 false) (or_intror (or_introl eq_refl))).
Defined.

Lemma disposeEach_callable vs s :
  (forall k v, In (k, v) vs -> dispose v = Callable) ->
  disposeEach vs s = Done (appendTrace (List.map (fun kv => VoiceDispose (fst kv)) vs) s).
Proof.
  revert s. induction vs as [|[k v] vs IH]; simpl; intros s H.
  - now rewrite appendTrace_nil.
  - rewrite (H k v) by now left. rewrite IH by (intros; eapply H; right; eauto).
    now rewrite emit_appendTrace, appendTrace_app.
Qed.

Lemma trace_initSynths_incl s e : In e (trace s) -> In e (trace (initSynths s)).
Proof.
  assert (Hstep : forall (f : State -> Track -> State),
            (forall s0 t e0, In e0 (trace s0) -> In e0 (trace (f s0 t))) ->
            forall ts s0, In e (trace s0) -> In e (trace (foldl f s0 ts))).
  { intros f Hf ts. induction ts as [|a ts IH]; simpl; intros s0 H; [assumption|].
    apply IH, Hf, H. }
  intros H. unfold initSynths. apply Hstep.
  - intros s0 t e0 H0. unfold syncVolume. now destruct (synthsRef s0 !! id t).
  - apply Hstep; [| assumption].
    intros s0 t e0 H0. unfold createMissing. destruct (synthsRef s0 !! id t); [assumption|].
    simpl. apply in_or_app. now left.
Qed.

(** X12: when the track list changes and the synth effect re-runs, with
    voices and sequence that can be disposed, everything is rebuilt: each
    old voice is disposed, the sequence is disposed and the ref cleared
    (so no tick can fire although [isPlaying] keeps its value), and for
    distinct ids every track gets a new voice of the registry family of
    its instrument at the track's volume; no other entry remains. *)
Theorem tracksEffect_rebuilds (s : State) :
  (forall k v, synthsRef s !! k = Some v -> dispose v = Callable) ->
  (forall q, sequencerRef s = Some q -> seq_dispose q = Callable) ->
  List.NoDup (List.map id (tracks s)) ->
  exists s', tracksEffect s = Done s' /\
    sequencerRef s' = None /\ tickStep s' = None /\
    isPlaying s' = isPlaying s /\ tracks s' = tracks s /\
    (forall t, In t (tracks s) -> synthsRef s' !! id t = Some (freshVoice t)) /\
    (forall k, (forall t, In t (tracks s) -> id t <> k) -> synthsRef s' !! k = None) /\
    (forall k v, synthsRef s !! k = Some v -> In (VoiceDispose k) (trace s')) /\
    (forall q, sequencerRef s = Some q -> In SequenceDispose (trace s')).
Proof.
  intros Hvoices Hseq Hnd. unfold tracksEffect, cleanupSynths.
  rewrite disposeEach_callable
    by (intros k v Hin; apply (Hvoices k v); now apply In_map_to_list).
  set (evs := List.map (fun kv => VoiceDispose (fst kv)) (map_to_list (synthsRef s))).
  assert (Hevs : forall k v, synthsRef s !! k = Some v -> In (VoiceDispose k) evs).
  { intros k v Hv. subst evs. apply in_map_iff. exists (k, v).
    split; [reflexivity | now apply In_map_to_list]. }
  set (s1 := match sequencerRef s with
             | Some _ => clearRefs (emit SequenceDispose (appendTrace evs s))
             | None => clearRefs (appendTrace evs s)
             end).
  assert (Hrun : match sequencerRef (appendTrace evs s) with
                 | Some q =>
                     match seq_dispose q with
                     | Callable => Done (clearRefs (emit SequenceDispose (appendTrace evs s)))
                     | _ => Thrown "sequencerRef.current.dispose" (appendTrace evs s)
                     end
                 | None => Done (clearRefs (appendTrace evs s))
                 end = Done s1).
  { subst s1. simpl. destruct (sequencerRef s) as [q|] eqn:E; [| reflexivity].
    now rewrite (Hseq q eq_refl). }
  rewrite Hrun. exists (initSynths s1). split; [reflexivity|].
  assert (Ht1 : tracks s1 = tracks s) by (subst s1; now destruct (sequencerRef s)).
  assert (Hs1 : synthsRef s1 = ∅) by (subst s1; now destruct (sequencerRef s)).
  assert (Hq1 : sequencerRef s1 = None) by (subst s1; now destruct (sequencerRef s)).
  assert (Hp1 : isPlaying s1 = isPlaying s) by (subst s1; now destruct (sequencerRef s)).
  assert (Hnd1 : List.NoDup (List.map id (tracks s1))) by now rewrite Ht1.
  assert (Hq : sequencerRef (initSynths s1) = None).
  { unfold initSynths. rewrite !(frame_foldl sequencerRef); [exact Hq1 | |].
    - intros s0 t. unfold createMissing. now destruct (synthsRef s0 !! id t).
    - intros s0 t. unfold syncVolume. now destruct (synthsRef s0 !! id t). }
  destruct (initSynths_lookup s1 Hnd1) as [Hlev Habs].
  split; [exact Hq|]. split.
  { unfold tickStep. rewrite Hq. now destruct (tstate (transport (initSynths s1))). }
  split.
  { unfold initSynths. rewrite !(frame_foldl isPlaying); [exact Hp1 | |].
    - intros s0 t. unfold createMissing. now destruct (synthsRef s0 !! id t).
    - intros s0 t. unfold syncVolume. now destruct (synthsRef s0 !! id t). }
  split; [now rewrite tracks_initSynths|].
  split; [| split; [| split]].
  - intros t Ht. rewrite Hlev by now rewrite Ht1. now rewrite Hs1, lookup_empty.
  - intros k Hk. rewrite Habs by now rewrite Ht1. now rewrite Hs1, lookup_empty.
  - intros k v Hv. apply trace_initSynths_incl. subst s1.
    destruct (sequencerRef s); simpl; rewrite ?in_app_iff; eauto 6.
  - intros q Hq0. apply trace_initSynths_incl. subst s1. rewrite Hq0. simpl.
    rewrite !in_app_iff. right. now left.
Qed.

Lemma tracksEffect_rebuilds_witness :
  let s := addNote "1" 0 "C4" None
             (updateTrackInstrument "1" "cello" (togglePlayback true initialState)) in
  exists s', tracksEffect s = Done s' /\ sequencerRef s' = None /\
    isPlaying s' = true /\
    synthsRef s' !! "1" = Some (mkVoice AMSynth 0 Callable Callable Callable).
Proof.
  intros s.
  set (t := mkTrack "1" "cello" [mkNote 0 "C4" (Some quarter)] 0 false).
  assert (Hin : In t (tracks s)) by (vm_compute; left; reflexivity).
  assert (Hplay : isPlaying s = true) by (vm_compute; reflexivity).
  destruct (tracksEffect_rebuilds s) as (s' & Hrun & Hq & _ & Hp & _ & Hv & _).
  - intros k v Hkv. apply In_map_to_list in Hkv. vm_compute in Hkv.
    destruct Hkv as [E | []]. now injection E as <- <-.
  - intros q Hq. vm_compute in Hq. now injection Hq as <-.
  - vm_compute. repeat constructor. intros [].
  - exists s'. split; [exact Hrun|]. split; [exact Hq|].
    split; [now rewrite Hp|].
    transitivity (Some (freshVoice t)); [exact (Hv t Hin) | vm_compute; reflexivity].
Defined.

(** ** Starting playback *)

Lemma recreateMissing_existing s t k v :
  synthsRef s !! k = Some v -> synthsRef (recreateMissing s t) !! k = Some v.
Proof.
  intros Hv. unfold recreateMissing. destruct (synthsRef s !! id t) eqn:E; [assumption|].
  simpl. rewrite lookup_insert_ne; [assumption|]. congruence.
Qed.

Lemma recreateMissing_here s t : is_Some (synthsRef (recreateMissing s t) !! id t).
Proof.
  unfold recreateMissing. destruct (synthsRef s !! id t) eqn:E; [eauto|].
  simpl. rewrite lookup_insert_eq. eauto.
Qed.

Lemma recreateMissing_new s t k v :
  synthsRef s !! k = None -> synthsRef (recreateMissing s t) !! k = Some v ->
  family v = Synth.
Proof.
  intros Hnone. unfold recreateMissing. destruct (synthsRef s !! id t) eqn:E; [congruence|].
  simpl. destruct (decide (id t = k)) as [->|Hne].
  - rewrite lookup_insert_eq. now intros [= <-].
  - rewrite lookup_insert_ne by assumption. congruence.
Qed.

Lemma foldl_recreateMissing ts s :
  (forall k v, synthsRef s !! k = Some v ->
     synthsRef (foldl recreateMissing s ts) !! k = Some v) /\
  (forall t, In t ts -> is_Some (synthsRef (foldl recreateMissing s ts) !! id t)) /\
  (forall k v, synthsRef s !! k = None ->
     synthsRef (foldl recreateMissing s ts) !! k = Some v -> family v = Synth).
Proof.
  revert s. induction ts as [|a ts IH]; simpl; intros s.
  - split; [auto | split; [intros t [] | congruence]].
  - destruct (IH (recreateMissing s a)) as (Hkeep & Hall & Hnew).
    split; [| split].
    + intros k v Hv. apply Hkeep. now apply recreateMissing_existing.
    + intros t [-> | Ht]; [| now apply Hall].
      destruct (recreateMissing_here s t) as [v Hv]. rewrite (Hkeep _ _ Hv). eauto.
    + intros k v Hnone Hv.
      destruct (synthsRef (recreateMissing s a) !! k) as [v0|] eqn:E.
      * rewrite (Hkeep _ _ E) in Hv. injection Hv as <-.
        now apply (recreateMissing_new s a k).
      * now apply (Hnew k v).
Qed.

Lemma recreateMissing_frame {B} (proj : State -> B) :
  (forall m e s, proj (setSynths m (emit e s)) = proj s) ->
  forall s t, proj (recreateMissing s t) = proj s.
Proof.
  intros H s t. unfold recreateMissing. destruct (synthsRef s !! id t); [reflexivity|].
  apply H.
Qed.

Lemma playOrPause_start_synths s :
  isPlaying s = false ->
  (forall q, sequencerRef s = Some q -> seq_dispose q = Callable) ->
  exists s', playOrPause s = Done s' /\ isPlaying s' = true /\
    contextRunning s' = contextRunning s /\
    synthsRef s' = synthsRef (if forallb (hasSynth s) (tracks s) then s
                              else foldl recreateMissing s (tracks s)).
Proof.
  intros Hp Hq. unfold playOrPause. rewrite Hp.
  set (s1 := if forallb (hasSynth s) (tracks s) then s else _).
  assert (H1 : sequencerRef s1 = sequencerRef s /\ contextRunning s1 = contextRunning s).
  { subst s1. destruct (forallb _ _); [split; reflexivity|].
    split; apply frame_foldl, recreateMissing_frame; reflexivity. }
  destruct H1 as [Hs Hc]. unfold createSequence. rewrite Hs.
  destruct (sequencerRef s) as [q|] eqn:E.
  - rewrite (Hq q eq_refl). eexists. split; [reflexivity|]. simpl. auto.
  - eexists. split; [reflexivity|]. simpl. auto.
Qed.

(** X13: a start that gets through (audio context running or activated,
    old sequence disposable) leaves no track without a voice: voices that
    exist are kept as they are, and a track that had none gets one of the
    plain [Synth] family, whatever its instrument. *)
Theorem togglePlayback_start_gives_voices (r : bool) (s : State) :
  isPlaying s = false -> contextRunning s = true \/ r = true ->
  (forall q, sequencerRef s = Some q -> seq_dispose q = Callable) ->
  let s' := togglePlayback r s in
  isPlaying s' = true /\ contextRunning s' = true /\
  (forall t, In t (tracks s) -> is_Some (synthsRef s' !! id t)) /\
  (forall k v, synthsRef s !! k = Some v -> synthsRef s' !! k = Some v) /\
  (forall k v, synthsRef s !! k = None -> synthsRef s' !! k = Some v -> family v = Synth).
Proof.
  intros Hp Hctx Hq s'.
  set (s0 := if contextRunning s then s else setContextRunning true s).
  assert (H0 : isPlaying s0 = false /\ contextRunning s0 = true /\
               tracks s0 = tracks s /\ synthsRef s0 = synthsRef s /\
               sequencerRef s0 = sequencerRef s).
  { subst s0. destruct (contextRunning s) eqn:E; repeat split; assumption. }
  destruct H0 as (Hp0 & Hc0 & Ht0 & Hsy0 & Hq0).
  assert (Hq' : forall q, sequencerRef s0 = Some q -> seq_dispose q = Callable)
    by now rewrite Hq0.
  destruct (playOrPause_start_synths s0 Hp0 Hq') as (x & Hrun & Hpx & Hcx & Hsx).
  assert (Hs' : s' = x).
  { subst s' s0. unfold togglePlayback. destruct (contextRunning s).
    - now rewrite Hrun.
    - destruct Hctx as [H | ->]; [discriminate|]. now rewrite Hrun. }
  rewrite Hs', Hsx. split; [exact Hpx|]. split; [congruence|].
  destruct (forallb (hasSynth s0) (tracks s0)) eqn:Eall.
  - rewrite Hsy0. split; [| split; [auto | congruence]].
    intros t Ht. rewrite <- Ht0 in Ht.
    apply (proj1 (forallb_forall _ _) Eall) in Ht.
    unfold hasSynth in Ht. apply bool_decide_eq_true in Ht. now rewrite <- Hsy0.
  - destruct (foldl_recreateMissing (tracks s0) s0) as (Hkeep & Hall & Hnew).
    rewrite Hsy0 in Hkeep, Hnew.
    split; [| split; [exact Hkeep | exact Hnew]].
    intros t Ht. apply Hall. now rewrite Ht0.
Qed.

Lemma togglePlayback_start_gives_voices_witness :
  let s := updateTrackInstrument "2" "violin" (addTrack initialState) in
  exists v, synthsRef (togglePlayback true s) !! "1" = Some v /\ family v = Synth.
Proof.
  intros s.
  assert (Hq : forall q, sequencerRef s = Some q -> seq_dispose q = Callable)
    by (intros q H; discriminate H).
  destruct (togglePlayback_start_gives_voices true s eq_refl (or_intror eq_refl) Hq)
    as (_ & _ & Hall & _ & Hnew).
  destruct (Hall (mkTrack "1" "piano" [] 0 false) (or_introl eq_refl)) as [v Hv].
  exists v. split; [exact Hv|]. exact (Hnew "1" v eq_refl Hv).
Defined.

(** X14: a start that fails changes nothing that plays.  When the audio
    context cannot be activated, or the old sequence throws on [dispose],
    [togglePlayback] returns with [isPlaying] still false, the transport
    and the sequence ref as before, and one console error at the end of
    the trace. *)
Theorem togglePlayback_failed_start (r : bool) (s : State) :
  isPlaying s = false ->
  (contextRunning s = false /\ r = false) \/
  (exists q, sequencerRef s = Some q /\ seq_dispose q <> Callable) ->
  let s' := togglePlayback r s in
  isPlaying s' = false /\ transport s' = transport s /\
  sequencerRef s' = sequencerRef s /\ tracks s' = tracks s /\
  exists pre, trace s' = (pre ++ [ConsoleError "Error toggling playback"])%list.
Proof.
  intros Hp Hfail s'. subst s'. unfold togglePlayback.
  assert (Hthrow : forall s0, isPlaying s0 = false -> transport s0 = transport s ->
            sequencerRef s0 = sequencerRef s -> tracks s0 = tracks s ->
            (exists q, sequencerRef s = Some q /\ seq_dispose q <> Callable) ->
            exists e x, playOrPause s0 = Thrown e x /\ isPlaying x = false /\
              transport x = transport s /\ sequencerRef x = sequencerRef s /\
              tracks x = tracks s).
  { intros s0 Hp0 Htr0 Hq0 Ht0 (q & Hq & Hbad). unfold playOrPause. rewrite Hp0.
    set (s1 := if forallb (hasSynth s0) (tracks s0) then s0 else _).
    assert (H1 : isPlaying s1 = false /\ transport s1 = transport s /\
                 sequencerRef s1 = sequencerRef s /\ tracks s1 = tracks s).
    { subst s1. destruct (forallb _ _); [auto|].
      repeat split; (rewrite frame_foldl; [assumption|]);
        intros a t; unfold recreateMissing; now destruct (synthsRef a !! id t). }
    destruct H1 as (Hp1 & Htr1 & Hq1 & Ht1).
    unfold createSequence. rewrite Hq1, Hq.
    destruct (seq_dispose q); [congruence | |]; eexists _, s1;
      (split; [reflexivity|]); rewrite Hq1; auto. }
  destruct (contextRunning s) eqn:Ec.
  - destruct Hfail as [[H _] | Hq]; [discriminate|].
    destruct (Hthrow s Hp eq_refl eq_refl eq_refl Hq) as (e & x & -> & Hx).
    simpl. destruct Hx as (? & ? & ? & ?). repeat split; eauto.
  - destruct r.
    + destruct Hfail as [[_ H] | Hq]; [discriminate|].
      destruct (Hthrow (setContextRunning true s) Hp eq_refl eq_refl eq_refl Hq)
        as (e & x & -> & Hx).
      simpl. destruct Hx as (? & ? & ? & ?). repeat split; eauto.
    + simpl. repeat split; eauto.
Qed.

Lemma togglePlayback_failed_start_witness :
  isPlaying (togglePlayback false initialState) = false /\
  transport (togglePlayback false initialState) = transport initialState /\
  exists pre, trace (togglePlayback false initialState) =
              (pre ++ [ConsoleError "Error toggling playback"])%list.
Proof.
  destruct (togglePlayback_failed_start false initialState eq_refl
              (or_introl (conj eq_refl eq_refl))) as (Hp & Htr & _ & _ & Hlog).
  split; [exact Hp|]. split; [exact Htr | exact Hlog].
Defined.

(** ** Cleared tracks *)

Lemma trackEvents_no_notes synths ix time t : notes t = [] -> trackEvents synths ix time t = [].
Proof. intros H. unfold trackEvents. rewrite H. now destruct (muted t). Qed.

(** X15: a sequence built from the track list that [clearTrack t] leaves
    never triggers the voice registered under [t]: every tick adds no
    [triggerAttackRelease] for that key, at any step. *)
Theorem clearTrack_silences (t : string) (s s0 : State) (q : Sequence)
    (time ix : Z) (p dur : string) (tm : Z) :
  seq_tracks q = tracks (clearTrack t s) ->
  In (VoiceTrigger t p dur tm) (trace (sequenceCallback q time ix s0)) ->
  In (VoiceTrigger t p dur tm) (trace s0).
Proof.
  intros Hq. rewrite sequenceCallback_events. simpl. rewrite Hq.
  intros Hin. apply in_app_or in Hin as [Hin | Hin]; [assumption|]. exfalso.
  apply in_concat in Hin as (evs & Hevs & Hin).
  apply in_map_iff in Hevs as (u & <- & Hu).
  unfold clearTrack in Hu. simpl in Hu. apply in_map_iff in Hu as (u0 & <- & _).
  unfold withNoNotes in Hin. destruct (String.eqb (id u0) t) eqn:E.
  - now rewrite trackEvents_no_notes in Hin.
  - apply trackEvents_trigger in Hin as (Hid & _). apply String.eqb_neq in E. congruence.
Qed.

Lemma clearTrack_silences_witness :
  let s := clearTrack "1" (addNote "1" 0 "C4" None initialState) in
  let playing := togglePlayback true s in
  let q := mkSequence (tracks s) (stepIndices 16) "8n" Callable in
  ~ In (VoiceTrigger "1" "C4" "4n" 0) (trace (sequenceCallback q 0 0 playing)).
Proof.
  intros s playing q Hin.
  apply (clearTrack_silences "1" (addNote "1" 0 "C4" None initialState)) in Hin;
    [| reflexivity].
  destruct Hin as [H | []]. discriminate H.
Defined.

(** * Properties of the music utilities *)

(** ** Scales *)

Lemma distinctb_NoDup l : distinctb l = true -> List.NoDup l.
Proof.
  induction l as [|x l IH]; simpl; [constructor|].
  intros H. apply andb_true_iff in H as [Hx Hl]. constructor; [| auto].
  intros Hin. apply negb_true_iff in Hx.
  assert (existsb (fun y => bool_decide (x = y)) l = true); [| congruence].
  apply existsb_exists. exists x. split; [assumption | now apply bool_decide_eq_true].
Qed.

Lemma oneOf_In x l : oneOf x l = true <-> In x l.
Proof.
  unfold oneOf. rewrite existsb_exists. split.
  - intros (y & Hy & E). apply String.eqb_eq in E. now subst.
  - intros H. exists x. split; [assumption | apply String.eqb_refl].
Qed.

Lemma scalePatterns_own scale pattern :
  scalePatterns scale = Own pattern -> In pattern ownPatterns.
Proof.
  unfold scalePatterns, ownPatterns.
  repeat (destruct (String.eqb scale _);
          [intros [= <-]; simpl; tauto|]).
  destruct (oneOf scale objectPrototypeKeys); discriminate.
Qed.

Lemma scales_well_formed :
  forallb (fun key => forallb (scaleWellFormed key) ownPatterns) chromaticScale = true.
Proof. vm_compute. reflexivity. Qed.

(** X16: for each of the twelve keys of the chromatic table
    [getScaleNotes] returns a proper scale whenever it returns: the first
    note is the key, every note is a name of the table (none is
    [undefined]) and no note occurs twice.  A scale name that the pattern
    table does not have, own or inherited, gives the major scale. *)
Theorem getScaleNotes_known_key (key scale : string) (notes : list (option string)) :
  In key chromaticScale -> getScaleNotes key scale = Some notes ->
  hd_error notes = Some (Some key) /\
  Forall (fun n => exists name, n = Some name /\ In name chromaticScale) notes /\
  List.NoDup notes /\
  (scalePatterns scale = Absent -> getScaleNotes key "major" = Some notes).
Proof.
  intros Hkey Hget.
  assert (Hpat : exists pattern, In pattern ownPatterns /\
            notes = List.map (scaleNote (indexOf key chromaticScale)) pattern).
  { revert Hget. unfold getScaleNotes. destruct (scalePatterns scale) as [pat| |] eqn:E.
    - intros [= <-]. exists pat. split; [now apply (scalePatterns_own scale) | reflexivity].
    - discriminate.
    - intros [= <-]. exists majorPattern. split; [now left | reflexivity]. }
  destruct Hpat as (pattern & Hpin & ->).
  pose proof scales_well_formed as Hall.
  rewrite forallb_forall in Hall. specialize (Hall key Hkey).
  rewrite forallb_forall in Hall. specialize (Hall pattern Hpin).
  unfold scaleWellFormed in Hall.
  apply andb_true_iff in Hall as [Hall Hd]. apply andb_true_iff in Hall as [Hh Hn].
  apply bool_decide_eq_true in Hh.
  split; [exact Hh|]. split; [| split; [now apply distinctb_NoDup|]].
  - apply List.Forall_forall. intros n Hin.
    apply (proj1 (forallb_forall _ _) Hn) in Hin. destruct n as [name|]; [| discriminate].
    exists name. split; [reflexivity | now apply oneOf_In].
  - intros Habs. revert Hget. unfold getScaleNotes. rewrite Habs. now intros [= <-].
Qed.

Lemma getScaleNotes_known_key_witness :
  getScaleNotes "A" "dorian" =
    Some [Some "A"; Some "B"; Some "C#"; Some "D"; Some "E"; Some "F#"; Some "G#"] /\
  getScaleNotes "A" "major" = getScaleNotes "A" "dorian".
Proof.
  assert (Hkey : In "A" chromaticScale) by (vm_compute; tauto).
  assert (Hget : getScaleNotes "A" "dorian" =
    Some [Some "A"; Some "B"; Some "C#"; Some "D"; Some "E"; Some "F#"; Some "G#"])
    by reflexivity.
  destruct (getScaleNotes_known_key "A" "dorian" _ Hkey Hget) as (_ & _ & _ & Hmajor).
  split; [exact Hget|]. rewrite Hget. apply Hmajor. reflexivity.
Defined.

Lemma indexOfFrom_absent i x l : ~ In x l -> indexOfFrom i x l = -1.
Proof.
  revert i. induction l as [|y l IH]; simpl; intros i H; [reflexivity|].
  destruct (String.eqb y x) eqn:E.
  - apply String.eqb_eq in E. tauto.
  - apply IH. tauto.
Qed.

(** X17: a key that is not one of the twelve table names (the flat keys
    "Bb", "Eb", ... that the key selector offers) has index -1: the scale
    comes out with [undefined] in the place of its root, followed by the
    notes that follow the root in the scale of "B". *)
Theorem getScaleNotes_unknown_key (key scale : string) (notes : list (option string)) :
  ~ In key chromaticScale -> getScaleNotes key scale = Some notes ->
  exists rest, notes = None :: rest /\
               getScaleNotes "B" scale = Some (Some "B" :: rest).
Proof.
  intros Hkey. unfold getScaleNotes, indexOf.
  rewrite (indexOfFrom_absent 0 key chromaticScale Hkey).
  unfold scalePatterns.
  repeat (destruct (String.eqb scale _);
          [intros [= <-]; eexists; split; reflexivity|]).
  destruct (oneOf scale objectPrototypeKeys); [discriminate|].
  intros [= <-]. eexists. split; reflexivity.
Qed.

Lemma getScaleNotes_unknown_key_witness :
  exists rest, getScaleNotes "Bb" "blues" = Some (None :: rest) /\
               getScaleNotes "B" "blues" = Some (Some "B" :: rest).
Proof.
  assert (Hkey : ~ In "Bb" chromaticScale).
  { vm_compute. intros H. repeat (destruct H as [H | H]; [discriminate H|]). exact H. }
  destruct (getScaleNotes_unknown_key "Bb" "blues" _ Hkey eq_refl) as (rest & E & HB).
  exists rest. split; [| exact HB]. now rewrite <- E.
Defined.

(** ** Clefs *)

Lemma startsWith_spec cs needle :
  startsWith cs needle = true <-> exists post, cs = (needle ++ post)%list.
Proof.
  revert cs. induction needle as [|n needle IH]; intros cs; simpl.
  - split; [intros _; now exists cs | intros _; now destruct cs].
  - destruct cs as [|c cs]; simpl.
    + split; [discriminate | intros (post & H); discriminate H].
    + rewrite andb_true_iff, Ascii.eqb_eq, IH. split.
      * intros (-> & post & ->). now exists post.
      * intros (post & [= -> ->]). eauto.
Qed.

Lemma includes_spec cs needle :
  includes cs needle = true <-> exists pre post, cs = (pre ++ needle ++ post)%list.
Proof.
  induction cs as [|c cs IH]; cbn [includes].
  - rewrite orb_false_r, startsWith_spec. split.
    + intros (post & H). now exists [], post.
    + intros (pre & post & H). destruct pre as [|p pre]; [now exists post|].
      discriminate H.
  - rewrite orb_true_iff, startsWith_spec, IH. split.
    + intros [(post & H) | (pre & post & ->)].
      * now exists [], post.
      * now exists (c :: pre), post.
    + intros (pre & post & H). destruct pre as [|p pre].
      * left. now exists post.
      * right. injection H as -> ->. now exists pre, post.
Qed.

Lemma firstIncluded_bass lowered names :
  firstIncluded lowered names = bass <->
  exists b, In b names /\ includes lowered (list_ascii_of_string b) = true.
Proof.
  induction names as [|b names IH]; simpl.
  - split; [discriminate | intros (b & [] & _)].
  - destruct (includes lowered (list_ascii_of_string b)) eqn:E.
    + split; [intros _; exists b; auto | reflexivity].
    + rewrite IH. split; intros (b' & Hb & Hi); exists b'; [auto|].
      destruct Hb as [<- | Hb]; [congruence | auto].
Qed.

Lemma bassInstruments_reduce b :
  In b bassInstruments ->
  exists w l r, In w bassWords /\
    list_ascii_of_string b = (l ++ list_ascii_of_string w ++ r)%list.
Proof.
  unfold bassInstruments. simpl.
  intros [<- | [<- | [<- | [<- | [<- | [<- | [<- | [<- | []]]]]]]]].
  - exists "cello", [], []. split; [simpl; tauto | reflexivity].
  - exists "bass", [], []. split; [simpl; tauto | reflexivity].
  - exists "bass", (list_ascii_of_string "double "), []. split; [simpl; tauto | reflexivity].
  - exists "tuba", [], []. split; [simpl; tauto | reflexivity].
  - exists "bass", [], (list_ascii_of_string "oon"). split; [simpl; tauto | reflexivity].
  - exists "trombone", [], []. split; [simpl; tauto | reflexivity].
  - exists "bass", [], (list_ascii_of_string " guitar"). split; [simpl; tauto | reflexivity].
  - exists "bass", (list_ascii_of_string "contra"), []. split; [simpl; tauto | reflexivity].
Qed.

(** X18: [getInstrumentClef] answers bass exactly when the lower-cased
    name contains "cello", "bass", "tuba" or "trombone" somewhere; the
    other four entries of its list add nothing, and the case of the
    letters does not matter. *)
Theorem getInstrumentClef_bass_iff (instrument : string) :
  getInstrumentClef instrument = bass <->
  exists w pre post, In w bassWords /\
    toLowerCase instrument = (pre ++ list_ascii_of_string w ++ post)%list.
Proof.
  unfold getInstrumentClef. rewrite firstIncluded_bass. split.
  - intros (b & Hb & Hi). apply includes_spec in Hi as (pre & post & Hi).
    destruct (bassInstruments_reduce b Hb) as (w & l & r & Hw & Hbw).
    exists w, (pre ++ l)%list, (r ++ post)%list. split; [assumption|].
    rewrite Hi, Hbw. now rewrite <- !app_assoc.
  - intros (w & pre & post & Hw & Hi). exists w. split.
    + unfold bassWords, bassInstruments in *. simpl in *. intuition.
    + apply includes_spec. eauto.
Qed.

Lemma getInstrumentClef_bass_iff_witness :
  getInstrumentClef "Electric BASS (5-string)" = bass.
Proof.
  apply getInstrumentClef_bass_iff.
  exists "bass", (list_ascii_of_string "electric "), (list_ascii_of_string " (5-string)").
  split; [simpl; tauto | reflexivity].
Defined.

(** ** The text grid *)

Lemma indexOfFrom_range i x l :
  indexOfFrom i x l = -1 \/
  exists r, indexOfFrom i x l = i + Z.of_nat r /\ nth_error l r = Some x.
Proof.
  revert i. induction l as [|y l IH]; simpl; intros i; [now left|].
  destruct (String.eqb y x) eqn:E.
  - right. exists 0%nat. apply String.eqb_eq in E. subst. split; [lia | reflexivity].
  - destruct (IH (i + 1)) as [H | (r & H & Hn)]; [now left|].
    right. exists (S r). split; [lia | assumption].
Qed.

Lemma indexOfFrom_nth i x l r :
  List.NoDup l -> nth_error l r = Some x -> indexOfFrom i x l = i + Z.of_nat r.
Proof.
  revert i r. induction l as [|y l IH]; intros i r Hnd Hr; [now destruct r|].
  apply List.NoDup_cons_iff in Hnd as [Hni Hnd]. simpl. destruct r as [|r]; simpl in Hr.
  - injection Hr as ->. rewrite String.eqb_refl. lia.
  - destruct (String.eqb y x) eqn:E.
    + apply String.eqb_eq in E. subst. exfalso. apply Hni. eapply nth_error_In; eauto.
    + rewrite (IH (i + 1) r Hnd Hr). lia.
Qed.

Lemma asciiPitches_NoDup : List.NoDup asciiPitches.
Proof.
  unfold asciiPitches.
  repeat (constructor; [simpl; intuition discriminate|]). constructor.
Qed.

Lemma hitsCell_spec r c n :
  hitsCell r c n = true <->
  nth_error asciiPitches r = Some (pitch n) /\ step n = Z.of_nat c.
Proof.
  unfold hitsCell, indexOf. rewrite andb_true_iff, !Z.eqb_eq. split.
  - intros [Hi Hs]. split; [| assumption].
    destruct (indexOfFrom_range 0 (pitch n) asciiPitches) as [H | (r' & H & Hn)]; [lia|].
    assert (r' = r) by lia. now subst.
  - intros [Hn Hs]. split; [| assumption].
    now rewrite (indexOfFrom_nth 0 _ _ r asciiPitches_NoDup Hn).
Qed.

Lemma placeNote_shaped grid n : gridShaped grid -> gridShaped (placeNote grid n).
Proof.
  intros [Hl Hrows]. unfold placeNote.
  destruct ((0 <=? indexOf (pitch n) asciiPitches) && (step n <? 16)); [| now split].
  destruct (step n <? 0); [now split|].
  destruct (grid !! Z.to_nat (indexOf (pitch n) asciiPitches)) as [row|] eqn:E; [| now split].
  split; [now rewrite length_insert|].
  apply Forall_insert; [assumption|]. rewrite length_insert.
  rewrite List.Forall_forall in Hrows. apply Hrows.
  apply list_elem_of_In. eapply list_elem_of_lookup_2; eauto.
Qed.

Lemma placeNote_cell grid n r c :
  gridShaped grid -> (r < 14)%nat -> (c < 16)%nat ->
  cellAt (placeNote grid n) r c =
  if hitsCell r c n then Some filledCell else cellAt grid r c.
Proof.
  intros [Hl Hrows] Hr Hc. unfold placeNote, hitsCell.
  set (ri := indexOf (pitch n) asciiPitches).
  destruct (0 <=? ri) eqn:E0; simpl.
  2: { apply Z.leb_gt in E0. destruct (ri =? Z.of_nat r) eqn:E; [| reflexivity].
       apply Z.eqb_eq in E. lia. }
  apply Z.leb_le in E0.
  destruct (step n <? 16) eqn:E16.
  2: { apply Z.ltb_ge in E16. destruct (step n =? Z.of_nat c) eqn:E;
         [apply Z.eqb_eq in E; lia | now rewrite andb_false_r]. }
  destruct (step n <? 0) eqn:Eneg.
  { apply Z.ltb_lt in Eneg. destruct (step n =? Z.of_nat c) eqn:E;
      [apply Z.eqb_eq in E; lia | now rewrite andb_false_r]. }
  apply Z.ltb_lt in E16. apply Z.ltb_ge in Eneg.
  destruct (grid !! Z.to_nat ri) as [row|] eqn:Erow.
  - assert (Hrow : length row = 16%nat).
    { rewrite List.Forall_forall in Hrows. apply Hrows.
      apply list_elem_of_In. eapply list_elem_of_lookup_2; eauto. }
    assert (Hri : (Z.to_nat ri < length grid)%nat) by (eapply lookup_lt_Some; eauto).
    unfold cellAt. destruct (ri =? Z.of_nat r) eqn:E; simpl.
    + apply Z.eqb_eq in E. assert (Z.to_nat ri = r) as Hrr by lia.
      rewrite Hrr in *. rewrite list_lookup_insert_eq by lia.
      destruct (step n =? Z.of_nat c) eqn:Es.
      * apply Z.eqb_eq in Es. assert (Z.to_nat (step n) = c) as -> by lia.
        apply list_lookup_insert_eq. lia.
      * apply Z.eqb_neq in Es. rewrite list_lookup_insert_ne by lia. now rewrite Erow.
    + apply Z.eqb_neq in E. rewrite list_lookup_insert_ne by lia. reflexivity.
  - destruct (ri =? Z.of_nat r) eqn:E; [| reflexivity]. apply Z.eqb_eq in E.
    apply lookup_ge_None in Erow. lia.
Qed.

Lemma foldl_placeNote_cell notes grid r c :
  gridShaped grid -> (r < 14)%nat -> (c < 16)%nat ->
  cellAt (foldl placeNote grid notes) r c =
  if existsb (hitsCell r c) notes then Some filledCell else cellAt grid r c.
Proof.
  revert grid. induction notes as [|n notes IH]; simpl; intros grid Hg Hr Hc; [reflexivity|].
  rewrite IH by auto using placeNote_shaped. rewrite placeNote_cell by assumption.
  destruct (hitsCell r c n); simpl; [now destruct (existsb _ _) | reflexivity].
Qed.

Lemma emptyGrid_shaped : gridShaped emptyGrid.
Proof. split; [reflexivity | repeat constructor]. Qed.

Lemma emptyGrid_cell r c : (r < 14)%nat -> (c < 16)%nat -> cellAt emptyGrid r c = Some emptyCell.
Proof.
  intros Hr Hc. unfold cellAt, emptyGrid.
  do 14 (destruct r as [|r]; [simpl; do 16 (destruct c as [|c]; [reflexivity|]); lia|]).
  lia.
Qed.

(** X19: the grid that [printMusicAsASCII] prints always has 14 rows of
    16 cells, and the cell of a row and a column is filled exactly when
    some note has the pitch of that row and the step of that column;
    every other cell is empty.  Notes with a pitch outside the 14 rows or
    a step outside 0..15 leave no mark. *)
Theorem asciiGrid_cells (notes : list Note) (r c : nat) :
  (r < 14)%nat -> (c < 16)%nat ->
  gridShaped (asciiGrid notes) /\
  cellAt (asciiGrid notes) r c =
    Some (if existsb (hitsCell r c) notes then filledCell else emptyCell) /\
  (existsb (hitsCell r c) notes = true <->
   exists n, In n notes /\ nth_error asciiPitches r = Some (pitch n) /\
             step n = Z.of_nat c).
Proof.
  intros Hr Hc. unfold asciiGrid. split; [| split].
  - generalize emptyGrid_shaped. generalize emptyGrid.
    induction notes as [|n notes IH]; simpl; intros g Hg; [assumption|].
    apply IH. now apply placeNote_shaped.
  - rewrite foldl_placeNote_cell by auto using emptyGrid_shaped.
    rewrite emptyGrid_cell by assumption. now destruct (existsb _ _).
  - rewrite existsb_exists. split; intros (n & Hn & H); exists n.
    + apply hitsCell_spec in H. tauto.
    + split; [assumption | now apply hitsCell_spec].
Qed.

Lemma asciiGrid_cells_witness :
  let notes := [mkNote 0 "C4" None; mkNote 16 "B5" None; mkNote (-1) "A5" None;
                mkNote 3 "C9" None] in
  cellAt (asciiGrid notes) 13 0 = Some filledCell /\
  cellAt (asciiGrid notes) 0 15 = Some emptyCell.
Proof.
  intros notes.
  destruct (asciiGrid_cells notes 13 0) as (_ & H1 & _); [lia | lia |].
  destruct (asciiGrid_cells notes 0 15) as (_ & H2 & _); [lia | lia |].
  split; [exact H1 | exact H2].
Defined.

(** ** Dropping a note *)

Lemma pitchAt_clamped c pos :
  exists p, pitchAt c pos = Some p /\ In p (clefPitches c) /\ p <> "" /\
    (pos <= 0 -> hd_error (clefPitches c) = Some p) /\
    (Z.of_nat (length (clefPitches c)) - 1 <= pos -> List.last (clefPitches c) "" = p).
Proof.
  unfold pitchAt, arrayAt.
  set (i := Z.min (Z.max 0 pos) (Z.of_nat (length (clefPitches c)) - 1)).
  assert (Hlen : (0 < length (clefPitches c))%nat) by (destruct c; simpl; lia).
  assert (Hi : 0 <= i < Z.of_nat (length (clefPitches c))) by lia.
  destruct (i <? 0) eqn:E; [apply Z.ltb_lt in E; lia|].
  destruct (nth_error (clefPitches c) (Z.to_nat i)) as [p|] eqn:Ep.
  2: { apply nth_error_None in Ep. lia. }
  exists p. split; [reflexivity|]. split; [eapply nth_error_In; eauto|].
  split; [| split].
  - assert (Hall : forallb (fun q => negb (String.eqb q "")) (clefPitches c) = true)
      by (destruct c; reflexivity).
    rewrite forallb_forall in Hall. specialize (Hall p (nth_error_In _ _ Ep)).
    apply negb_true_iff, String.eqb_neq in Hall. exact Hall.
  - intros Hpos. assert (i = 0) as Hz by lia. rewrite Hz in Ep.
    destruct (clefPitches c); simpl in *; congruence.
  - intros Hpos. assert (Z.to_nat i = (length (clefPitches c) - 1)%nat) as Hz by lia.
    rewrite Hz in Ep. clear - Ep Hlen.
    destruct c; simpl in *; congruence.
Qed.

(** X20: [handleDrop] calls [onAddNote] exactly when the staff is
    mounted and the computed step is an integer in [0, totalSteps); the
    call names the track that was dropped on, that step, the carried
    duration or else the active one, and a pitch of the clef of the
    track's instrument (treble when the track is unknown).  The pitch
    position is clamped, so a drop above the staff gives the top pitch and
    one below the bottom pitch; an infinite or [NaN] step adds nothing. *)
Theorem handleDrop_call (tracks : list Track) (totalSteps : Z)
    (activeDuration : NoteDuration) (trackId : string) (staffMounted : bool)
    (dropped : option NoteDuration) (step : Floored) (pitchPosition : Z) :
  let clef := match List.find (hasId trackId) tracks with
              | Some track => getInstrumentClef (instrument track)
              | None => treble
              end in
  let result := handleDrop tracks totalSteps activeDuration trackId staffMounted
                  dropped step pitchPosition in
  (forall call, result = Some call ->
     staffMounted = true /\ call_trackId call = trackId /\
     step = Finite (call_step call) /\ 0 <= call_step call < totalSteps /\
     In (call_pitch call) (clefPitches clef) /\
     call_duration call = default activeDuration dropped /\
     (pitchPosition <= 0 -> hd_error (clefPitches clef) = Some (call_pitch call)) /\
     (Z.of_nat (length (clefPitches clef)) - 1 <= pitchPosition ->
        List.last (clefPitches clef) "" = call_pitch call)) /\
  (forall z, staffMounted = true -> step = Finite z -> 0 <= z < totalSteps ->
     exists call, result = Some call).
Proof.
  intros clef result. subst result. unfold handleDrop. fold clef.
  destruct (pitchAt_clamped clef pitchPosition) as (p & Hp & Hin & Hne & Htop & Hbot).
  rewrite Hp. apply String.eqb_neq in Hne. rewrite Hne. split.
  - intros call. destruct staffMounted; [| discriminate].
    unfold stepInRange. destruct step as [z| | |]; try discriminate.
    destruct ((0 <=? z) && (z <? totalSteps)) eqn:E; [| discriminate].
    apply andb_true_iff in E as [E1 E2]. apply Z.leb_le in E1. apply Z.ltb_lt in E2.
    intros [= <-]. simpl. repeat split; auto.
  - intros z -> -> Hz. unfold stepInRange.
    destruct ((0 <=? z) && (z <? totalSteps)) eqn:E; [eauto|].
    apply andb_false_iff in E as [E | E]; [apply Z.leb_gt in E | apply Z.ltb_ge in E]; lia.
Qed.

Lemma handleDrop_call_witness :
  exists call,
    handleDrop [mkTrack "1" "cello" [] 0 false] 16 quarter "1" true (Some half)
      (Finite 5) (-3) = Some call /\
    call_pitch call = "E4" /\ call_step call = 5.
Proof.
  destruct (handleDrop_call [mkTrack "1" "cello" [] 0 false] 16 quarter "1" true
              (Some half) (Finite 5) (-3)) as [Hcall Hmade].
  destruct (Hmade 5 eq_refl eq_refl) as (call & Hc); [lia|].
  exists call. split; [exact Hc|].
  destruct (Hcall call Hc) as (_ & _ & Hs & _ & _ & _ & Htop & _).
  split.
  - assert (Hhd : hd_error (clefPitches bass) = Some (call_pitch call)) by (apply Htop; lia).
    now injection Hhd.
  - now injection Hs.
Defined.

(** ** Note names with accidentals, and all MIDI numbers *)

Lemma takeRun_all cls cs : Forall (fun c => cls c = true) cs -> takeRun cls cs = cs.
Proof. induction 1 as [|c cs Hc _ IH]; simpl; [reflexivity|]. now rewrite Hc, IH. Qed.

Lemma octaveGroup_all acc n oct :
  oct <> [] -> Forall (fun c => isOctaveChar c = true) oct ->
  octaveGroup acc n oct = Some (mkPitchMatch n acc oct).
Proof.
  intros Hne Hall. unfold octaveGroup. rewrite takeRun_all by assumption.
  destruct oct; [congruence | reflexivity].
Qed.

Lemma matchPitch_plain n oct :
  isNoteLetter n = true -> oct <> [] -> Forall (fun c => isOctaveChar c = true) oct ->
  matchPitch (n :: oct) = Some (mkPitchMatch n None oct).
Proof.
  intros Hn Hne Hall. cbn [matchPitch matchHere]. rewrite Hn.
  destruct oct as [|o os]; [congruence|].
  rewrite (octaveChar_not_accidental o) by now apply Forall_inv in Hall.
  now rewrite octaveGroup_all.
Qed.

Lemma matchPitch_accidental n a oct :
  isNoteLetter n = true -> isAccidental a = true ->
  oct <> [] -> Forall (fun c => isOctaveChar c = true) oct ->
  matchPitch (n :: a :: oct) = Some (mkPitchMatch n (Some a) oct).
Proof.
  intros Hn Ha Hne Hall. cbn [matchPitch matchHere]. rewrite Hn, Ha.
  now rewrite octaveGroup_all.
Qed.

Lemma noteNameToMidi_plain s n oct :
  list_ascii_of_string s = n :: oct ->
  isNoteLetter n = true -> oct <> [] -> Forall (fun c => isOctaveChar c = true) oct ->
  noteNameToMidi s = midiFrom (parseInt oct) (letterIndex n).
Proof.
  intros Hs Hn Hne Hall. unfold noteNameToMidi. rewrite Hs, matchPitch_plain by assumption.
  reflexivity.
Qed.

Lemma noteNameToMidi_sharp s n oct :
  list_ascii_of_string s = n :: "#"%char :: oct ->
  isNoteLetter n = true -> oct <> [] -> Forall (fun c => isOctaveChar c = true) oct ->
  noteNameToMidi s = midiFrom (parseInt oct) (letterIndex n + 1).
Proof.
  intros Hs Hn Hne Hall. unfold noteNameToMidi.
  rewrite Hs, matchPitch_accidental by (assumption || reflexivity). reflexivity.
Qed.

Lemma noteNameToMidi_flat s n oct :
  list_ascii_of_string s = n :: "b"%char :: oct ->
  isNoteLetter n = true -> oct <> [] -> Forall (fun c => isOctaveChar c = true) oct ->
  noteNameToMidi s = midiFrom (parseInt oct) (letterIndex n - 1).
Proof.
  intros Hs Hn Hne Hall. unfold noteNameToMidi.
  rewrite Hs, matchPitch_accidental by (assumption || reflexivity). reflexivity.
Qed.

Lemma midiFrom_shift octave i k :
  midiFrom octave (i + k) = numAdd (midiFrom octave i) (Int k).
Proof.
  unfold midiFrom. destruct octave as [z|]; simpl; [| reflexivity]. f_equal. lia.
Qed.

(** X21: in a name made of a letter [A]-[G], an accidental and an octave
    of at most 14 characters (every number involved is then an integer
    below 2^53, where the arithmetic of the source is exact), a sharp
    raises the number that [noteNameToMidi] reads from the bare name by
    one and a flat lowers it by one ([NaN] stays [NaN]); so "Cb4" reads
    as 59 and "B#4" as 72. *)
Theorem accidental_shifts_by_one (n : ascii) (oct : list ascii) :
  isNoteLetter n = true -> oct <> [] -> (length oct <= 14)%nat ->
  Forall (fun c => isOctaveChar c = true) oct ->
  let bare := noteNameToMidi (string_of_list_ascii (n :: oct)) in
  noteNameToMidi (string_of_list_ascii (n :: "#"%char :: oct)) = numAdd bare (Int 1) /\
  noteNameToMidi (string_of_list_ascii (n :: "b"%char :: oct)) = numAdd bare (Int (-1)).
Proof.
  intros Hn Hne _ Hall bare. subst bare.
  rewrite (noteNameToMidi_plain (string_of_list_ascii (n :: oct)) n oct) by
    (try apply list_ascii_of_string_of_list_ascii; assumption).
  rewrite (noteNameToMidi_sharp (string_of_list_ascii (n :: "#"%char :: oct)) n oct) by
    (try apply list_ascii_of_string_of_list_ascii; assumption).
  rewrite (noteNameToMidi_flat (string_of_list_ascii (n :: "b"%char :: oct)) n oct) by
    (try apply list_ascii_of_string_of_list_ascii; assumption).
  split; [apply midiFrom_shift | apply (midiFrom_shift _ _ (-1))].
Qed.

Lemma accidental_shifts_by_one_witness :
  noteNameToMidi "B#4" = Int 72 /\ noteNameToMidi "Cb4" = Int 59.
Proof.
  assert (H4 : Forall (fun c => isOctaveChar c = true) ["4"%char]) by (repeat constructor).
  assert (Hne : ["4"%char] <> []) by discriminate.
  assert (Hlen : (length ["4"%char] <= 14)%nat) by (simpl; lia).
  destruct (accidental_shifts_by_one "B"%char ["4"%char] eq_refl Hne Hlen H4) as [Hs _].
  destruct (accidental_shifts_by_one "C"%char ["4"%char] eq_refl Hne Hlen H4) as [_ Hf].
  split; [exact Hs | exact Hf].
Defined.

Lemma list_ascii_of_string_append a b :
  list_ascii_of_string (String.append a b) =
  (list_ascii_of_string a ++ list_ascii_of_string b)%list.
Proof. induction a as [|c a IH]; simpl; [reflexivity | now rewrite IH]. Qed.

Lemma digitsValue_acc d acc :
  foldl digitStep (Z.pos acc) (list_ascii_of_string (NilEmpty.string_of_uint d)) =
  Z.pos (Pos.of_uint_acc d acc).
Proof.
  revert acc. induction d; intros acc;
    cbn [NilEmpty.string_of_uint list_ascii_of_string foldl Pos.of_uint_acc];
    [reflexivity | ..];
    rewrite <- IHd; f_equal; unfold digitStep;
    match goal with |- context [charCode ?c] =>
      let v := eval vm_compute in (charCode c) in change (charCode c) with v end;
    lia.
Qed.

Lemma digitsValue_uint d :
  digitsValue (list_ascii_of_string (NilEmpty.string_of_uint d)) = Z.of_N (Pos.of_uint d).
Proof.
  unfold digitsValue. change (fun acc d0 => 10 * acc + (charCode d0 - 48)) with digitStep.
  induction d; simpl; [reflexivity | exact IHd | ..]; apply digitsValue_acc.
Qed.

Lemma uint_digits d :
  Forall (fun c => isDigit c = true) (list_ascii_of_string (NilEmpty.string_of_uint d)).
Proof. induction d; simpl; constructor; (reflexivity || assumption). Qed.

Lemma digit_is_octaveChar c : isDigit c = true -> isOctaveChar c = true.
Proof. intros H. unfold isOctaveChar. rewrite H. apply orb_true_r. Qed.

Lemma digit_not_minus c : isDigit c = true -> (charCode c =? 45) = false.
Proof.
  unfold isDigit. intros H. apply andb_true_iff in H as [H _].
  apply Z.leb_le in H. apply Z.eqb_neq. lia.
Qed.

Lemma parseInt_uint d :
  d <> Decimal.Nil ->
  parseInt (list_ascii_of_string (NilEmpty.string_of_uint d)) = Int (Z.of_N (Pos.of_uint d)).
Proof.
  intros Hd. unfold parseInt. pose proof (uint_digits d) as Hall.
  pose proof (digitsValue_uint d) as Hval.
  destruct (list_ascii_of_string (NilEmpty.string_of_uint d)) as [|c cs] eqn:E.
  - destruct d; simpl in E; congruence.
  - rewrite (digit_not_minus c) by now apply Forall_inv in Hall.
    rewrite takeRun_all by assumption. now rewrite Hval.
Qed.

Lemma intToString_chars z :
  let cs := list_ascii_of_string (intToString z) in
  parseInt cs = Int z /\ cs <> [] /\ Forall (fun c => isOctaveChar c = true) cs.
Proof.
  unfold intToString. destruct z as [|p|p]; simpl.
  - split; [reflexivity|]. split; [discriminate | repeat constructor].
  - pose proof (DecimalPos.Unsigned.to_uint_nonnil p) as Hp.
    rewrite parseInt_uint by assumption. rewrite DecimalPos.Unsigned.of_to.
    split; [reflexivity|]. split.
    + destruct (Pos.to_uint p); simpl; congruence.
    + eapply List.Forall_impl; [apply digit_is_octaveChar | apply uint_digits].
  - pose proof (DecimalPos.Unsigned.to_uint_nonnil p) as Hp.
    pose proof (uint_digits (Pos.to_uint p)) as Hall.
    pose proof (digitsValue_uint (Pos.to_uint p)) as Hval.
    rewrite DecimalPos.Unsigned.of_to in Hval. simpl in Hval.
    split; [| split; [discriminate|]].
    + unfold parseInt. change (charCode "-" =? 45) with true. cbv iota beta.
      rewrite takeRun_all by assumption.
      destruct (list_ascii_of_string (NilEmpty.string_of_uint (Pos.to_uint p))) eqn:E.
      * destruct (Pos.to_uint p); simpl in E; congruence.
      * now rewrite Hval.
    + constructor; [reflexivity|].
      eapply List.Forall_impl; [apply digit_is_octaveChar | exact Hall].
Qed.

Lemma matchPitch_no_letter cs :
  Forall (fun c => isNoteLetter c = false) cs -> matchPitch cs = None.
Proof.
  induction 1 as [|c cs Hc _ IH]; [reflexivity|].
  cbn [matchPitch matchHere]. now rewrite Hc.
Qed.

Lemma nameAt_shape r :
  0 <= r < 12 ->
  (exists n, isNoteLetter n = true /\ list_ascii_of_string (nameAt r) = [n] /\
             letterIndex n = r) \/
  (exists n, isNoteLetter n = true /\ list_ascii_of_string (nameAt r) = [n; "#"%char] /\
             letterIndex n + 1 = r).
Proof.
  intros Hr.
  assert (Hcases : r = 0 \/ r = 1 \/ r = 2 \/ r = 3 \/ r = 4 \/ r = 5 \/
                   r = 6 \/ r = 7 \/ r = 8 \/ r = 9 \/ r = 10 \/ r = 11) by lia.
  destruct Hcases as [-> | [-> | [-> | [-> | [-> | [-> | [-> | [-> | [-> | [-> | [-> | ->]]]]]]]]]]].
  - left. exists "C"%char. repeat split.
  - right. exists "C"%char. repeat split.
  - left. exists "D"%char. repeat split.
  - right. exists "D"%char. repeat split.
  - left. exists "E"%char. repeat split.
  - left. exists "F"%char. repeat split.
  - right. exists "F"%char. repeat split.
  - left. exists "G"%char. repeat split.
  - right. exists "G"%char. repeat split.
  - left. exists "A"%char. repeat split.
  - right. exists "A"%char. repeat split.
  - left. exists "B"%char. repeat split.
Qed.

(** X22: among the integers between -2^53 and 2^53, which a JS number
    holds exactly, the round trip through a note name holds for every
    MIDI number that is not negative and for the negative multiples of
    12; for any other negative number [midiToNoteName] puts [undefined]
    in the name and [noteNameToMidi] reads 60. *)
Theorem midi_roundtrip_all (m : Z) :
  - 2 ^ 53 < m < 2 ^ 53 ->
  (0 <= Z.rem m 12 -> noteNameToMidi (midiToNoteName m) = Int m) /\
  (Z.rem m 12 < 0 -> noteNameToMidi (midiToNoteName m) = Int 60).
Proof.
  intros _. unfold midiToNoteName.
  destruct (intToString_chars (m / 12 - 1)) as (Hparse & Hne & Hall).
  set (oct := list_ascii_of_string (intToString (m / 12 - 1))) in *.
  pose proof (Z.rem_bound_abs m 12) as Hb.
  assert (Habs : Z.abs (Z.rem m 12) < 12) by (apply Z.rem_bound_abs; lia).
  split.
  - intros Hr.
    assert (Hm : m = 12 * (m / 12) + Z.rem m 12).
    { destruct (Z.le_gt_cases 0 m) as [Hpos | Hneg].
      - rewrite Z.rem_mod_nonneg by lia. apply Z.div_mod. lia.
      - assert (Hz : Z.rem m 12 = 0).
        { pose proof (Z.rem_nonpos m 12). lia. }
        rewrite Hz. apply Z.rem_divide in Hz; [| lia]. destruct Hz as [k ->].
        rewrite Z.div_mul by lia. lia. }
    assert (Hgoal : forall i, midiFrom (parseInt oct) i = Int (12 * (m / 12) + i)).
    { intros i. rewrite Hparse. unfold midiFrom. simpl. f_equal. lia. }
    destruct (nameAt_shape (Z.rem m 12)) as [(n & Hn & Hname & Hix) | (n & Hn & Hname & Hix)];
      [lia | |].
    + rewrite (noteNameToMidi_plain _ n oct); [| | assumption..].
      * rewrite Hgoal, Hix. f_equal. lia.
      * now rewrite list_ascii_of_string_append, Hname.
    + rewrite (noteNameToMidi_sharp _ n oct); [| | assumption..].
      * rewrite Hgoal, Hix. f_equal. lia.
      * now rewrite list_ascii_of_string_append, Hname.
  - intros Hr. unfold nameAt. apply Z.ltb_lt in Hr. rewrite Hr.
    unfold noteNameToMidi. rewrite list_ascii_of_string_append.
    rewrite matchPitch_no_letter; [reflexivity|].
    apply List.Forall_app. split; [repeat constructor|].
    eapply List.Forall_impl; [| exact Hall]. intros c Hc.
    unfold isOctaveChar in Hc. unfold isNoteLetter, isDigit in *.
    apply orb_true_iff in Hc as [Hc | Hc].
    + apply Z.eqb_eq in Hc. rewrite Hc. reflexivity.
    + apply andb_true_iff in Hc as [H1 H2]. apply Z.leb_le in H1, H2.
      apply andb_false_iff. left. apply Z.leb_gt. lia.
Qed.

Lemma midi_roundtrip_all_witness :
  noteNameToMidi (midiToNoteName 9007199254740991) = Int 9007199254740991 /\
  noteNameToMidi (midiToNoteName 1000) = Int 1000 /\
  noteNameToMidi (midiToNoteName (-24)) = Int (-24) /\
  noteNameToMidi (midiToNoteName (-1)) = Int 60.
Proof.
  assert (Hsafe : forall m, -9007199254740992 < m < 9007199254740992 ->
                            - 2 ^ 53 < m < 2 ^ 53).
  { intros m Hm. change (2 ^ 53) with 9007199254740992. exact Hm. }
  split; [apply (proj1 (midi_roundtrip_all _ (Hsafe 9007199254740991 ltac:(lia))));
          vm_compute; discriminate|].
  split; [apply (proj1 (midi_roundtrip_all _ (Hsafe 1000 ltac:(lia))));
          vm_compute; discriminate|].
  split; [apply (proj1 (midi_roundtrip_all _ (Hsafe (-24) ltac:(lia))));
          vm_compute; discriminate|].
  apply (proj2 (midi_roundtrip_all _ (Hsafe (-1) ltac:(lia)))). reflexivity.
Defined.

(** ** The text notation *)

Lemma insertByStep_In n l x : In x (insertByStep n l) <-> x = n \/ In x l.
Proof.
  induction l as [|y l IH]; simpl; [intuition|].
  destruct (step n <? step y); simpl; [intuition|]. rewrite IH. intuition.
Qed.

Lemma insertByStep_ascending n l : ascendingSteps l -> ascendingSteps (insertByStep n l).
Proof.
  unfold ascendingSteps. induction 1 as [|y l Hs IH Hall]; simpl.
  - repeat constructor.
  - destruct (step n <? step y) eqn:E.
    + apply Z.ltb_lt in E. constructor; [now constructor|].
      constructor; [lia|]. eapply List.Forall_impl; [| exact Hall]. simpl. intros; lia.
    + apply Z.ltb_ge in E. constructor; [assumption|].
      apply List.Forall_forall. intros x Hx. apply insertByStep_In in Hx as [-> | Hx]; [lia|].
      rewrite List.Forall_forall in Hall. auto.
Qed.

Lemma filter_none k l :
  Forall (fun x => startsAt k x = false) l -> List.filter (startsAt k) l = [].
Proof. induction 1 as [|x l Hx _ IH]; simpl; [reflexivity | now rewrite Hx]. Qed.

Lemma filter_insertByStep k n l :
  ascendingSteps l ->
  List.filter (startsAt k) (insertByStep n l) =
  (List.filter (startsAt k) l ++ (if startsAt k n then [n] else []))%list.
Proof.
  unfold ascendingSteps. induction 1 as [|y l Hs IH Hall]; simpl.
  - now destruct (startsAt k n).
  - destruct (step n <? step y) eqn:E; simpl.
    + apply Z.ltb_lt in E. destruct (startsAt k n) eqn:En; [| now rewrite app_nil_r].
      unfold startsAt in En. apply Z.eqb_eq in En.
      assert (Hy : startsAt k y = false) by (unfold startsAt; apply Z.eqb_neq; lia).
      rewrite Hy, filter_none; [reflexivity|].
      eapply List.Forall_impl; [| exact Hall]. simpl. intros z Hz.
      unfold startsAt. apply Z.eqb_neq. lia.
    + rewrite IH. now destruct (startsAt k y).
Qed.

Lemma filter_sortByStep k notes :
  List.filter (startsAt k) (sortByStep notes) = List.filter (startsAt k) notes.
Proof.
  unfold sortByStep.
  assert (H : forall acc, ascendingSteps acc ->
            ascendingSteps (foldl (fun a n => insertByStep n a) acc notes) /\
            List.filter (startsAt k) (foldl (fun a n => insertByStep n a) acc notes) =
            (List.filter (startsAt k) acc ++ List.filter (startsAt k) notes)%list).
  { induction notes as [|n notes IH]; simpl; intros acc Hacc.
    - split; [assumption | now rewrite app_nil_r].
    - destruct (IH (insertByStep n acc) (insertByStep_ascending n acc Hacc)) as [Hs Hf].
      split; [assumption|]. rewrite Hf, filter_insertByStep by assumption.
      rewrite <- app_assoc. now destruct (startsAt k n). }
  apply (H [] (SSorted_nil _)).
Qed.

Lemma lookup_pushPitch notesByStep notes k :
  default [] (foldl pushPitch notesByStep notes !! k) =
  (default [] (notesByStep !! k) ++ pitchesAt notes k)%list.
Proof.
  revert notesByStep. induction notes as [|n notes IH]; simpl; intros m.
  - unfold pitchesAt. simpl. now rewrite app_nil_r.
  - rewrite IH. unfold pushPitch, pitchesAt. simpl. unfold startsAt at 2.
    destruct (Z.eqb_spec (step n) k) as [-> | Hne].
    + rewrite lookup_insert_eq. simpl. now rewrite <- app_assoc.
    + now rewrite lookup_insert_ne.
Qed.

Lemma append_assoc a b c :
  String.append (String.append a b) c = String.append a (String.append b c).
Proof.
  induction a as [|x a IH]; [reflexivity|].
  change (String x (String.append (String.append a b) c) =
          String x (String.append a (String.append b c))).
  now rewrite IH.
Qed.

Lemma append_empty_r a : String.append a "" = a.
Proof.
  induction a as [|x a IH]; [reflexivity|].
  change (String x (String.append a "") = String x a). now rewrite IH.
Qed.

Lemma notationStep_cell m notation st :
  notationStep m notation st =
  String.append notation (cellText st (default [] (m !! st))).
Proof.
  unfold notationStep, cellText.
  destruct (Z.rem st 4 =? 0); destruct (default [] (m !! st));
    rewrite ?append_assoc; reflexivity.
Qed.

Lemma foldl_append (f : Z -> string) l h :
  foldl (fun acc st => String.append acc (f st)) h l =
  String.append h (String.concat "" (List.map f l)).
Proof.
  revert h. induction l as [|x l IH]; simpl; intros h; [now rewrite append_empty_r|].
  rewrite IH, append_assoc. destruct l; simpl; [now rewrite append_empty_r | reflexivity].
Qed.

(** X23: the text that [generateMusicNotation] builds is the header
    followed by one cell for each of the steps 0 to 15 and a closing bar,
    where the cell of a step lists the pitches of the notes that start at
    that step in the order in which the notes were given, or is a dot when
    there is none.  The sort and the grouping leave no other trace, and
    notes at other steps, like the durations, do not show. *)
Theorem generateMusicNotation_cells (notes : list Note) (key scale : string) :
  generateMusicNotation notes key scale =
  String.append
    (String.append "Key: " (String.append key (String.append " "
       (String.append scale (String.append newline newline)))))
    (String.append
       (String.concat "" (List.map (fun st => cellText st (pitchesAt notes st))
                            (stepIndices 16)))
       " |").
Proof.
  unfold generateMusicNotation.
  generalize (String.append "Key: " (String.append key (String.append " "
    (String.append scale (String.append newline newline))))).
  intros h. rewrite <- (append_assoc h). f_equal.
  rewrite <- (foldl_append (fun st => cellText st (pitchesAt notes st))).
  generalize (stepIndices 16). intros l. revert h.
  induction l as [|st l IH]; simpl; intros h; [reflexivity|].
  rewrite <- IH. f_equal. rewrite notationStep_cell. do 2 f_equal.
  rewrite lookup_pushPitch, lookup_empty. simpl.
  unfold pitchesAt. now rewrite filter_sortByStep.
Qed.

Lemma generateMusicNotation_cells_witness :
  generateMusicNotation
    [mkNote 4 "E4" None; mkNote 0 "C4" (Some half); mkNote 4 "G4" None; mkNote 20 "A4" None]
    "C" "major"
  = generateMusicNotation
      [mkNote 0 "C4" None; mkNote 4 "E4" None; mkNote 4 "G4" (Some whole)] "C" "major".
Proof.
  rewrite !generateMusicNotation_cells. reflexivity.
Defined.
